(** * A shallow embedding of the assembler's compiler package

    The development follows [compiler/compiler.go]: the [Compiler] record,
    the per-mnemonic encoders ([assembleADD], [assembleMov], ...), the
    statement loop of [Compile] and its two patch loops.  Bytes are integers
    in [0, 256), Go's [int] is a 64-bit two's complement integer whose
    wrap-around is written out, and Go maps are finite maps.  A run-time
    panic (index out of range) is an outcome of its own, distinct from a
    returned [error]. *)

From Stdlib Require Import ZArith Lia List Ascii String.
From stdpp Require Import gmap strings list fin_maps.

Local Open Scope string_scope.
Local Open Scope list_scope.
Local Open Scope Z_scope.

(** ** Machine integers *)

Definition uint32 (v : Z) : Z := v mod 2^32.
Definition uint64 (v : Z) : Z := v mod 2^64.
Definition int64 (v : Z) : Z := (v + 2^63) mod 2^64 - 2^63.
Definition byte (v : Z) : Z := v mod 2^8.

(** [binary.LittleEndian.PutUint32] on a fresh 4-byte buffer. *)
Definition PutUint32 (v : Z) : list Z :=
  [ byte v; byte (Z.shiftr v 8); byte (Z.shiftr v 16); byte (Z.shiftr v 24) ].

(** ** The parts of Go's [strconv] and [fmt] the compiler calls

    These are library functions, modelled after the Go standard library
    (Go 1.13 and later, 64-bit [int]). *)

Module strconv.

Inductive NumError := ErrSyntax | ErrRange | ErrBase | ErrBitSize.

Definition maxUint64 : Z := 2^64 - 1.
Definition IntSize : Z := 64.

Definition ord (c : ascii) : Z := Z.of_N (N_of_ascii c).

(** [lower(c) = c | ('x' - 'X')] *)
Definition lower (c : Z) : Z := Z.lor c 32.

Definition digitVal (c : Z) : option Z :=
  if (48 <=? c) && (c <=? 57) then Some (c - 48)
  else if (97 <=? lower c) && (lower c <=? 122) then Some (lower c - 97 + 10)
  else None.

Inductive loopres :=
| LoopDone (n : Z) (underscores : bool)
| LoopErr (v : Z) (e : NumError).

(** The digit loop of [ParseUint]. *)
Fixpoint digitsLoop (base0 : bool) (base cutoff maxVal : Z)
    (s : string) (n : Z) (underscores : bool) : loopres :=
  match s with
  | EmptyString => LoopDone n underscores
  | String ch s' =>
    let c := ord ch in
    if (c =? 95) && base0 then
      digitsLoop base0 base cutoff maxVal s' n true
    else
      match digitVal c with
      | None => LoopErr 0 ErrSyntax
      | Some d =>
        if d >=? byte base then LoopErr 0 ErrSyntax
        else if n >=? cutoff then LoopErr maxVal ErrRange
        else
          let n' := uint64 (n * base) in
          let n1 := uint64 (n' + d) in
          if (n1 <? n') || (n1 >? maxVal) then LoopErr maxVal ErrRange
          else digitsLoop base0 base cutoff maxVal s' n1 underscores
      end
  end.

(** The last character class seen by [underscoreOK]. *)
Inductive seen := SeenStart | SeenDigit | SeenUnderscore | SeenOther.

Definition isBasePrefix (c : Z) : bool :=
  (lower c =? 98) || (lower c =? 111) || (lower c =? 120).

Fixpoint underscoreLoop (hex : bool) (s : string) (i : seen) : bool :=
  match s with
  | EmptyString => match i with SeenUnderscore => false | _ => true end
  | String ch s' =>
    let c := ord ch in
    if ((48 <=? c) && (c <=? 57))
       || (hex && (97 <=? lower c) && (lower c <=? 102)) then
      underscoreLoop hex s' SeenDigit
    else if c =? 95 then
      match i with
      | SeenDigit => underscoreLoop hex s' SeenUnderscore
      | _ => false
      end
    else
      match i with
      | SeenUnderscore => false
      | _ => underscoreLoop hex s' SeenOther
      end
  end.

Definition underscoreOK (s : string) : bool :=
  let s :=
    match s with
    | String ch s' => if (ord ch =? 45) || (ord ch =? 43) then s' else s
    | EmptyString => s
    end in
  match s with
  | String c0 (String c1 s') =>
    if (ord c0 =? 48) && isBasePrefix (ord c1) then
      underscoreLoop (lower (ord c1) =? 120) s' SeenDigit
    else underscoreLoop false s SeenStart
  | _ => underscoreLoop false s SeenStart
  end.

(** Base selection of [ParseUint] for [base == 0]. *)
Definition pickBase (s : string) : Z * string :=
  match s with
  | String c0 s1 =>
    if ord c0 =? 48 then
      match s1 with
      | String c1 (String c2 s3) =>
        if lower (ord c1) =? 98 then (2, String c2 s3)
        else if lower (ord c1) =? 111 then (8, String c2 s3)
        else if lower (ord c1) =? 120 then (16, String c2 s3)
        else (8, s1)
      | _ => (8, s1)
      end
    else (10, s)
  | EmptyString => (10, s)
  end.

Definition ParseUint (s : string) (base bitSize : Z) : Z * option NumError :=
  match s with
  | EmptyString => (0, Some ErrSyntax)
  | _ =>
    let base0 := base =? 0 in
    let s0 := s in
    let picked :=
      if (2 <=? base) && (base <=? 36) then Some (base, s)
      else if base =? 0 then Some (pickBase s)
      else None in
    match picked with
    | None => (0, Some ErrBase)
    | Some (base, s) =>
      if (bitSize <? 0) || (bitSize >? 64) then (0, Some ErrBitSize)
      else
        let bitSize := if bitSize =? 0 then IntSize else bitSize in
        let cutoff := maxUint64 / base + 1 in
        let maxVal := uint64 (uint64 (Z.shiftl 1 bitSize) - 1) in
        match digitsLoop base0 base cutoff maxVal s 0 false with
        | LoopErr v e => (v, Some e)
        | LoopDone n underscores =>
          if underscores && negb (underscoreOK s0) then (0, Some ErrSyntax)
          else (n, None)
        end
    end
  end.

Definition ParseInt (s : string) (base bitSize : Z) : Z * option NumError :=
  match s with
  | EmptyString => (0, Some ErrSyntax)
  | String ch s' =>
    let neg := ord ch =? 45 in
    let s1 := if (ord ch =? 43) || neg then s' else s in
    let '(un, err) := ParseUint s1 base bitSize in
    match err with
    | Some ErrSyntax => (0, err)
    | Some ErrBase => (0, err)
    | Some ErrBitSize => (0, err)
    | _ =>
      let bitSize := if bitSize =? 0 then IntSize else bitSize in
      let cutoff := Z.shiftl 1 (bitSize - 1) in
      if negb neg && (un >=? cutoff) then (int64 (cutoff - 1), Some ErrRange)
      else if neg && (un >? cutoff) then (int64 (- int64 cutoff), Some ErrRange)
      else
        let n := int64 un in
        ((if neg then int64 (- n) else n), None)
    end
  end.

(** The fast path of [Atoi]: at most 18 characters, no overflow check. *)
Fixpoint atoiLoop (s : string) (n : Z) : option Z :=
  match s with
  | EmptyString => Some n
  | String ch s' =>
    let c := byte (ord ch - 48) in
    if c >? 9 then None else atoiLoop s' (int64 (n * 10 + c))
  end.

Definition Atoi (s : string) : Z * option NumError :=
  let sLen := Z.of_nat (String.length s) in
  if (0 <? sLen) && (sLen <? 19) then
    match s with
    | EmptyString => (0, Some ErrSyntax)
    | String ch s' =>
      let signed := (ord ch =? 45) || (ord ch =? 43) in
      let s1 := if signed then s' else s in
      if signed && (String.length s1 =? 0)%nat then (0, Some ErrSyntax)
      else
        match atoiLoop s1 0 with
        | None => (0, Some ErrSyntax)
        | Some n => ((if ord ch =? 45 then int64 (- n) else n), None)
        end
    end
  else ParseInt s 10 0.

(** Decimal formatting, [fmt.Sprintf("%d", v)]: digits from the least
    significant one, written right to left. *)
Definition digitChar (d : Z) : ascii := ascii_of_N (Z.to_N (48 + d)).

Fixpoint formatBits (fuel : nat) (u : Z) (acc : string) : string :=
  match fuel with
  | O => acc
  | S fuel' =>
    let acc' := String (digitChar (u mod 10)) acc in
    if u / 10 =? 0 then acc' else formatBits fuel' (u / 10) acc'
  end.

(** Enough turns for every digit of [u]. *)
Definition fuelFor (u : Z) : nat := S (Z.to_nat (Z.log2 u)).

Definition Sprintf_d (v : Z) : string :=
  let u := Z.abs v in
  let digits := formatBits (fuelFor u) u EmptyString in
  if v <? 0 then String "-" digits else digits.

(** [ParseUint]'s cutoff in base ten. *)
Definition cutoff10 : Z := maxUint64 / 10 + 1.

(** The two ways decimal text is parsed: [ParseInt(s, 0, 64)] by the
    compiler, [ParseInt(s, 10, 0)] by [Atoi]. *)
Definition decimalCall (base bitSize : Z) : Prop :=
  base = 0 /\ bitSize = 64 \/ base = 10 /\ bitSize = 0.

End strconv.


(** ** Tokens and parser nodes

    The [token] and [parser] packages are collaborators of the compiler;
    only the shapes the compiler reads are declared here. *)

Module token.

(** Modelled from the spec: the token package's [Type]; the spec names the
    operand kinds Register, Immediate (NUMBER) and Identifier, any other
    kind of token is [OTHER]. *)
Inductive Type' := REGISTER | NUMBER | IDENTIFIER | OTHER.

#[global] Instance Type_eq_dec : EqDecision Type'.
Proof. solve_decision. Defined.

(** [Typ] is the field [Type] of the source. *)
Record Token := { Typ : Type'; Literal : string }.

End token.

Module parser.

(** Modelled from the spec: [parser.Instruction], a mnemonic and an ordered
    operand list; [Name] is the field [Instruction] of the source. *)
Record Instruction := { Name : string; Operands : list token.Token }.

(** Modelled from the spec: the statements [Parser.Next] yields; [Unhandled]
    is any node of another type. *)
Inductive Node :=
| Data (name : string) (Contents : list Z)
| Error (Value : string)
| Label (name : string)
| Instr (i : Instruction)
| Unhandled.

End parser.

Import token parser.

(** ** Compiler state, errors and outcomes *)

Record Compiler := mkCompiler {
  output : string;                (* path of the binary to generate *)
  code : list Z;                  (* the code we generate *)
  data : list Z;                  (* constant strings, etc. *)
  dataOffsets : gmap string Z;    (* data-name -> data-offset *)
  patches : gmap nat Z;           (* code offset -> data offset *)
  labels : gmap string Z;         (* label -> code offset *)
  labelTargets : gmap nat string; (* code offset -> label *)
  stdout : list string            (* what was printed so far *)
}.

(** The keys of [patches] and [labelTargets] are only ever [len(c.code)],
    hence natural numbers; their values are Go [int]s. *)

Definition len {A} (l : list A) : Z := Z.of_nat (length l).

Inductive error :=
| ErrParser (Value : string)
| ErrUnhandledNode
| ErrUnknownInstruction (i : Instruction)
| ErrArgToByte (lit : string) (e : strconv.NumError)
| ErrArgToByteArray (lit : string) (e : strconv.NumError)
| ErrAddNumber (reg : string)
| ErrUnhandledADD (i : Instruction)
| ErrDEC (i : Instruction)
| ErrINC (i : Instruction)
| ErrMovUnknownRegister (i : Instruction)
| ErrMovUnknownData (t : Token)
| ErrUnknownMOV (i : Instruction)
| ErrPush (i : Instruction)
| ErrSubNumber (reg : string)
| ErrUnhandledSUB (i : Instruction)
| ErrXOR (i : Instruction)
| ErrWriteElf (msg : string).

(** What a call yields: a value, a returned [error], or a run-time panic. *)
Inductive res (A : Type) :=
| Val (a : A)
| Err (e : error)
| Panic.
Arguments Val {A} a.
Arguments Err {A} e.
Arguments Panic {A}.

(** Methods on [*Compiler]: the state is threaded, and an error or a panic
    stops the rest of the method, leaving the state as it is then. *)
Definition M (A : Type) : Type := Compiler -> Compiler * res A.

#[global] Instance M_ret : MRet M := fun A a c => (c, Val a).
#[global] Instance M_bind : MBind M := fun A B f m c =>
  match m c with
  | (c', Val a) => f a c'
  | (c', Err e) => (c', Err e)
  | (c', Panic) => (c', Panic)
  end.

Definition fail {A} (e : error) : M A := fun c => (c, Err e).
Definition panic {A} : M A := fun c => (c, Panic).
Definition get : M Compiler := fun c => (c, Val c).

Definition setCode (bs : list Z) (c : Compiler) : Compiler :=
  mkCompiler (output c) bs (data c) (dataOffsets c) (patches c) (labels c)
    (labelTargets c) (stdout c).
Definition setData (bs : list Z) (c : Compiler) : Compiler :=
  mkCompiler (output c) (code c) bs (dataOffsets c) (patches c) (labels c)
    (labelTargets c) (stdout c).
Definition setDataOffsets (m : gmap string Z) (c : Compiler) : Compiler :=
  mkCompiler (output c) (code c) (data c) m (patches c) (labels c)
    (labelTargets c) (stdout c).
Definition setPatches (m : gmap nat Z) (c : Compiler) : Compiler :=
  mkCompiler (output c) (code c) (data c) (dataOffsets c) m (labels c)
    (labelTargets c) (stdout c).
Definition setLabels (m : gmap string Z) (c : Compiler) : Compiler :=
  mkCompiler (output c) (code c) (data c) (dataOffsets c) (patches c) m
    (labelTargets c) (stdout c).
Definition setLabelTargets (m : gmap nat string) (c : Compiler) : Compiler :=
  mkCompiler (output c) (code c) (data c) (dataOffsets c) (patches c) (labels c)
    m (stdout c).
Definition setStdout (o : list string) (c : Compiler) : Compiler :=
  mkCompiler (output c) (code c) (data c) (dataOffsets c) (patches c) (labels c)
    (labelTargets c) o.

(** [c.code = append(c.code, bs...)] *)
Definition appendCode (bs : list Z) : M unit :=
  fun c => (setCode (code c ++ bs) c, Val tt).

(** [fmt.Printf(s)] *)
Definition Printf (s : string) : M unit :=
  fun c => (setStdout (stdout c ++ [s]) c, Val tt).

(** [c.patches[len(c.code)] = v] *)
Definition recordPatch (v : Z) : M unit :=
  fun c => (setPatches (<[length (code c) := v]> (patches c)) c, Val tt).

(** [c.labelTargets[len(c.code)] = s] *)
Definition recordLabelTarget (s : string) : M unit :=
  fun c => (setLabelTargets (<[length (code c) := s]> (labelTargets c)) c, Val tt).

(** [c.labels[name] = len(c.code)] *)
Definition recordLabel (name : string) : M unit :=
  fun c => (setLabels (<[name := len (code c)]> (labels c)) c, Val tt).

(** [i.Operands[k]]: indexing past the end of the slice panics. *)
Definition operand (i : Instruction) (k : nat) : M Token :=
  fun c => match Operands i !! k with
           | Some t => (c, Val t)
           | None => (c, Panic)
           end.

(** [New]: the state a compilation starts from. *)
Definition New : Compiler :=
  mkCompiler "a.out" [] [] ∅ ∅ ∅ ∅ [].

Definition SetOutput (path : string) (c : Compiler) : Compiler :=
  mkCompiler path (code c) (data c) (dataOffsets c) (patches c) (labels c)
    (labelTargets c) (stdout c).

(** ** Operand conversion *)

(** used by [int] *)
Definition argToByte (t : Token) : Z * option error :=
  match strconv.ParseInt (Literal t) 0 64 with
  | (_, Some e) => (0, Some (ErrArgToByte (Literal t) e))
  | (num, None) => (byte num, None)
  end.

(** used by [mov] *)
Definition argToByteArray (t : Token) : list Z * option error :=
  match strconv.ParseInt (Literal t) 0 64 with
  | (_, Some e) => ([0; 0; 0; 0], Some (ErrArgToByteArray (Literal t) e))
  | (num, None) => (PutUint32 (uint32 num), None)
  end.

(** [n, err := f(t); if err != nil { return err }] *)
Definition try {A} (r : A * option error) : M A :=
  match r with
  | (_, Some e) => fail e
  | (a, None) => mret a
  end.

(** ** The encoders *)

(** A Go map filled by a run of assignments [m[k] = v]. *)
Definition assign `{Countable K} {V} (kvs : list (K * V)) : gmap K V :=
  foldl (fun m kv => <[kv.1 := kv.2]> m) ∅ kvs.

(** The register-register table of [assembleADD]. *)
Definition codesADD : gmap (string * string) (list Z) :=
  assign [
    (("rax", "rax"), [0x48; 0x01; 0xc0]);
    (("rax", "rbx"), [0x48; 0x01; 0xd8]);
    (("rax", "rcx"), [0x48; 0x01; 0xc8]);
    (("rax", "rdx"), [0x48; 0x01; 0xd0]);

    (("rbx", "rax"), [0x48; 0x01; 0xc3]);
    (("rbx", "rbx"), [0x48; 0x01; 0xdb]);
    (("rbx", "rcx"), [0x48; 0x01; 0xcb]);
    (("rbx", "rdx"), [0x48; 0x01; 0xd3]);

    (("rcx", "rax"), [0x48; 0x01; 0xc1]);
    (("rcx", "rbx"), [0x48; 0x01; 0xd9]);
    (("rcx", "rcx"), [0x48; 0x01; 0xc9]);
    (("rcx", "rdx"), [0x48; 0x01; 0xd1]);

    (("rdx", "rax"), [0x48; 0x01; 0xc2]);
    (("rdx", "rbx"), [0x48; 0x01; 0xda]);
    (("rdx", "rcx"), [0x48; 0x01; 0xca]);
    (("rdx", "rdx"), [0x48; 0x01; 0xd2])
  ].

(** [assembleADD] handles addition. *)
Definition assembleADD (i : Instruction) : M unit :=
  a ← operand i 0;
  b ← operand i 1;
  (* simple registers? *)
  match codesADD !! (Literal a, Literal b) with
  | Some bytes => appendCode bytes
  | None =>
    (* OK number added to a register? *)
    if decide (Typ a = REGISTER ∧ Typ b = NUMBER) then
      n ← try (argToByteArray b);
      (if decide (Literal a = "rax") then appendCode [0x48; 0x05]
       else if decide (Literal a = "rbx") then appendCode [0x48; 0x81; 0xc3]
       else if decide (Literal a = "rcx") then appendCode [0x48; 0x81; 0xc1]
       else if decide (Literal a = "rdx") then appendCode [0x48; 0x81; 0xc2]
       else fail (ErrAddNumber (Literal a)));;
      appendCode n
    else fail (ErrUnhandledADD i)
  end.

Definition tableDEC : gmap string (list Z) :=
  assign [
    ("rax", [0x48; 0xff; 0xc8]);
    ("rbx", [0x48; 0xff; 0xcb]);
    ("rcx", [0x48; 0xff; 0xc9]);
    ("rdx", [0x48; 0xff; 0xca])
  ].

(** [assembleDEC] handles dec rax, rbx, etc. *)
Definition assembleDEC (i : Instruction) : M unit :=
  a ← operand i 0;
  match tableDEC !! Literal a with
  | Some bytes => appendCode bytes
  | None => fail (ErrDEC i)
  end.

Definition tableINC : gmap string (list Z) :=
  assign [
    ("rax", [0x48; 0xff; 0xc0]);
    ("rbx", [0x48; 0xff; 0xc3]);
    ("rcx", [0x48; 0xff; 0xc1]);
    ("rdx", [0x48; 0xff; 0xc2])
  ].

(** [assembleINC] handles inc rax, rbx, etc. *)
Definition assembleINC (i : Instruction) : M unit :=
  a ← operand i 0;
  match tableINC !! Literal a with
  | Some bytes => appendCode bytes
  | None => fail (ErrINC i)
  end.

(** One register case of [assembleMov]'s number branch: the opcode prefix,
    the conversion of the number, the patch when the number stands for a
    data block, then the four bytes. *)
Definition movNumber (prefix : list Z) (b : Token) (label : bool) : M unit :=
  appendCode prefix;;
  n ← try (argToByteArray b);
  (if label then recordPatch (strconv.Atoi (Literal b)).1 else mret tt);;
  appendCode n.

(** [i.Operands[0].Type == t0 && i.Operands[1].Type == t1]: [&&] reads the
    second operand only when the first has type [t0]. *)
Definition operandTypes (i : Instruction) (t0 t1 : Type') : M bool :=
  a ← operand i 0;
  if decide (Typ a = t0) then
    b ← operand i 1;
    mret (bool_decide (Typ b = t1))
  else mret false.

(** The body of [assembleMov]; [self] is the recursive call. *)
Definition assembleMov_body (self : Instruction -> bool -> M unit)
    (i : Instruction) (label : bool) : M unit :=
  (* Are we moving a register to another register? *)
  regreg ← operandTypes i REGISTER REGISTER;
  if (regreg : bool) then Printf ("TODO: mov reg,reg" +:+ String "010" EmptyString)
  else
  (* Are we moving a number to a register ? *)
  regnum ← operandTypes i REGISTER NUMBER;
  if (regnum : bool) then
    a ← operand i 0;
    b ← operand i 1;
    if decide (Literal a = "rax") then movNumber [0x48; 0xc7; 0xc0] b label
    else if decide (Literal a = "rbx") then movNumber [0x48; 0xc7; 0xc3] b label
    else if decide (Literal a = "rcx") then movNumber [0x48; 0xc7; 0xc1] b label
    else if decide (Literal a = "rdx") then movNumber [0x48; 0xc7; 0xc2] b label
    else fail (ErrMovUnknownRegister i)
  else
  (* mov $reg, $id *)
  regid ← operandTypes i REGISTER IDENTIFIER;
  if (regid : bool) then
    b ← operand i 1;
    c ← get;
    match dataOffsets c !! Literal b with
    | Some val =>
      let b' := {| Typ := NUMBER; Literal := strconv.Sprintf_d val |} in
      self {| Name := Name i; Operands := <[1%nat := b']> (Operands i) |} true
    | None => fail (ErrMovUnknownData b)
    end
  else fail (ErrUnknownMOV i).

(** [assembleMov] calls itself once at most: the call it makes has a NUMBER
    as second operand, and the number branch does not recurse.  Two
    unfoldings of the body give the method (see [assembleMov_unfold]). *)
Fixpoint assembleMov_depth (depth : nat) (i : Instruction) (label : bool) : M unit :=
  match depth with
  | O => panic
  | S d => assembleMov_body (assembleMov_depth d) i label
  end.

Definition assembleMov : Instruction -> bool -> M unit := assembleMov_depth 2.

(** [assemblePush] would compile "push offset", and "push 0x1234". *)
Definition assemblePush (i : Instruction) : M unit :=
  a ← operand i 0;
  (* Is this a number?  Just output it *)
  if decide (Typ a = NUMBER) then
    b ← operand i 1;
    n ← try (argToByteArray b);
    appendCode [0x68];;
    appendCode n
  (* Is this a label? *)
  else if decide (Typ a = IDENTIFIER) then
    appendCode [0x68];;
    recordLabelTarget (Literal a);;
    appendCode [0x0; 0x0; 0x0; 0x0]
  else fail (ErrPush i).

(** The register-register table of [assembleSUB]. *)
Definition codesSUB : gmap (string * string) (list Z) :=
  assign [
    (("rax", "rax"), [0x48; 0x29; 0xc0]);
    (("rax", "rbx"), [0x48; 0x29; 0xd8]);
    (("rax", "rcx"), [0x48; 0x29; 0xc8]);
    (("rax", "rdx"), [0x48; 0x29; 0xd0]);

    (("rbx", "rax"), [0x48; 0x29; 0xc3]);
    (("rbx", "rbx"), [0x48; 0x29; 0xdb]);
    (("rbx", "rcx"), [0x48; 0x29; 0xcb]);
    (("rbx", "rdx"), [0x48; 0x29; 0xd3]);

    (("rcx", "rax"), [0x48; 0x29; 0xc1]);
    (("rcx", "rbx"), [0x48; 0x29; 0xd9]);
    (("rcx", "rcx"), [0x48; 0x29; 0xc9]);
    (("rcx", "rdx"), [0x48; 0x29; 0xd1]);

    (("rdx", "rax"), [0x48; 0x29; 0xc2]);
    (("rdx", "rbx"), [0x48; 0x29; 0xda]);
    (("rdx", "rcx"), [0x48; 0x29; 0xca]);
    (("rdx", "rdx"), [0x48; 0x29; 0xd2])
  ].

(** [assembleSUB] handles subtraction. *)
Definition assembleSUB (i : Instruction) : M unit :=
  a ← operand i 0;
  b ← operand i 1;
  match codesSUB !! (Literal a, Literal b) with
  | Some bytes => appendCode bytes
  | None =>
    if decide (Typ a = REGISTER ∧ Typ b = NUMBER) then
      n ← try (argToByteArray b);
      (if decide (Literal a = "rax") then appendCode [0x48; 0x2d]
       else if decide (Literal a = "rbx") then appendCode [0x48; 0x81; 0xeb]
       else if decide (Literal a = "rcx") then appendCode [0x48; 0x81; 0xe9]
       else if decide (Literal a = "rdx") then appendCode [0x48; 0x81; 0xea]
       else fail (ErrSubNumber (Literal a)));;
      appendCode n
    else fail (ErrUnhandledSUB i)
  end.

(** [assembleXOR] handles xor rax, rbx, etc. *)
Definition assembleXOR (i : Instruction) : M unit :=
  a ← operand i 0;
  if decide (Literal a = "rax") then appendCode [0x48; 0x31; 0xc0]
  else if decide (Literal a = "rbx") then appendCode [0x48; 0x31; 0xdb]
  else if decide (Literal a = "rcx") then appendCode [0x48; 0x31; 0xc9]
  else if decide (Literal a = "rdx") then appendCode [0x48; 0x31; 0xd2]
  else fail (ErrXOR i).

(** [compileInstruction] handles the instruction generation. *)
Definition compileInstruction (i : Instruction) : M unit :=
  if decide (Name i = "add") then assembleADD i
  else if decide (Name i = "dec") then assembleDEC i
  else if decide (Name i = "inc") then assembleINC i
  else if decide (Name i = "int") then
    a ← operand i 0;
    n ← try (argToByte a);
    appendCode [0xcd];;
    appendCode [n]
  else if decide (Name i = "mov") then assembleMov i false
  else if decide (Name i = "nop") then appendCode [0x90]
  else if decide (Name i = "push") then assemblePush i
  else if decide (Name i = "ret") then appendCode [0xc3]
  else if decide (Name i = "sub") then assembleSUB i
  else if decide (Name i = "xor") then assembleXOR i
  else fail (ErrUnknownInstruction i).

(** [handleData] appends the data to the data-section of our binary, and
    stores the offset appropriately. *)
Definition handleData (name : string) (Contents : list Z) : M unit :=
  fun c =>
    let offset := len (data c) in
    let c := setData (data c ++ Contents) c in
    (setDataOffsets (<[name := offset]> (dataOffsets c)) c, Val tt).

(** ** Compile *)

(** The [switch] on the type of one statement. *)
Definition statement (stmt : Node) : M unit :=
  match stmt with
  | Data name contents => handleData name contents
  | Error v => fail (ErrParser v)
  | Label name => recordLabel name
  | Instr i => compileInstruction i
  | Unhandled => fail ErrUnhandledNode
  end.

(** The statement loop of [Compile]: the stream of [Parser.Next] is the list
    of nodes it yields before [nil]. *)
Fixpoint statements (stream : list Node) : M unit :=
  match stream with
  | [] => mret tt
  | stmt :: rest => statement stmt;; statements rest
  end.

Definition loadBase : Z := 0x400000.
Definition headerSize : Z := 0x40 + (2 * 0x38).

(** [c.code[idx] = x]; an index out of range panics. *)
Definition store (idx : nat) (x : Z) : M unit :=
  fun c => if decide (idx < length (code c))%nat
           then (setCode (<[idx := x]> (code c)) c, Val tt)
           else (c, Panic).

(** [for i, x := range buf { c.code[i+o] = x }], from index [i] on. *)
Fixpoint storeAt (o i : nat) (buf : list Z) : M unit :=
  match buf with
  | [] => mret tt
  | x :: buf' => store (i + o) x;; storeAt o (S i) buf'
  end.

(** The body of the data-patch loop. *)
Definition applyPatch (o : nat) (v : Z) : M unit :=
  c ← get;
  let v := int64 (0x400000 + v + len (code c) + 0x40 + (2 * 0x38)) in
  storeAt o 0 (PutUint32 (uint32 v)).

(** The body of the label-patch loop; a missing key reads as zero. *)
Definition applyLabelTarget (o : nat) (s : string) : M unit :=
  c ← get;
  let offset := default 0 (labels c !! s) in
  let offset := int64 (0x400000 + offset + 0x40 + (2 * 0x38)) in
  storeAt o 0 (PutUint32 (uint32 offset)).

(** A [range] loop over a map, visiting its entries in the order [entries]. *)
Fixpoint rangeOver {K V} (body : K -> V -> M unit) (entries : list (K * V)) : M unit :=
  match entries with
  | [] => mret tt
  | (k, v) :: rest => body k v;; rangeOver body rest
  end.

(** Go leaves the iteration order of [range] over a map unspecified: every
    entry is visited once, in some order. *)
Definition iteration `{Countable K} {V} (m : gmap K V) (entries : list (K * V)) : Prop :=
  entries ≡ₚ map_to_list m.

(** The two patch loops, for given iteration orders. *)
Definition resolve (ps : list (nat * Z)) (ls : list (nat * string)) : M unit :=
  rangeOver applyPatch ps;;
  rangeOver applyLabelTarget ls.

Section Emitter.

(** The ELF writer is a collaborator: [WriteContent path code data] yields
    the message of its error, if any. *)
Variable WriteContent : string -> list Z -> list Z -> option string.

Definition writeElf : M unit :=
  fun c => match WriteContent (output c) (code c) (data c) with
           | Some msg => (c, Err (ErrWriteElf msg))
           | None => (c, Val tt)
           end.

(** [Compile]: the runs the code admits on a stream, one per pair of
    iteration orders of the maps as they are when the stream is drained. *)
Inductive Compile (stream : list Node) (c : Compiler) : Compiler * res unit -> Prop :=
| Compile_aborted c' r :
    statements stream c = (c', r) -> r ≠ Val tt ->
    Compile stream c (c', r)
| Compile_resolved c1 ps ls :
    statements stream c = (c1, Val tt) ->
    iteration (patches c1) ps ->
    iteration (labelTargets c1) ls ->
    Compile stream c ((resolve ps ls;; writeElf) c1).

(** One run of [Compile]: the maps are walked in the order of their
    entry lists. *)
Definition CompileRun (stream : list Node) : M unit :=
  statements stream;;
  c ← get;
  resolve (map_to_list (patches c)) (map_to_list (labelTargets c));;
  writeElf.

End Emitter.

(** Four bytes of the code buffer from offset [o] on. *)
Definition window (o : nat) (bs : list Z) : list Z := take 4 (drop o bs).

(** ** Notions the statements below are about *)

(** The address the data-patch loop computes for a stored data offset. *)
Definition dataAddress (c : Compiler) (v : Z) : Z :=
  int64 (0x400000 + v + len (code c) + 0x40 + (2 * 0x38)).

(** The address the label-patch loop computes for a label name. *)
Definition labelAddress (c : Compiler) (s : string) : Z :=
  int64 (0x400000 + default 0 (labels c !! s) + 0x40 + (2 * 0x38)).

(** What [storeAt] does to the code buffer when every index is in range. *)
Fixpoint writeBytes (o i : nat) (buf : list Z) (bs : list Z) : list Z :=
  match buf with
  | [] => bs
  | x :: buf' => writeBytes o (S i) buf' (<[(i + o)%nat := x]> bs)
  end.

(** A resolved patch: a code offset and the address to write there. *)
Definition applyWrite (bs : list Z) (w : nat * Z) : list Z :=
  writeBytes w.1 0 (PutUint32 (uint32 w.2)) bs.

Definition writesOf (c : Compiler) (ps : list (nat * Z)) (ls : list (nat * string))
    : list (nat * Z) :=
  map (fun p => (p.1, dataAddress c p.2)) ps
  ++ map (fun l => (l.1, labelAddress c l.2)) ls.

(** Two 4-byte windows that do not overlap. *)
Definition apart (o o' : nat) : Prop := (o + 4 <= o' \/ o' + 4 <= o)%nat.

(** [o] is the code offset of a patch of either kind. *)
Definition isPatch (c : Compiler) (o : nat) : Prop :=
  is_Some (patches c !! o) \/ is_Some (labelTargets c !! o).

(** The invariant of the statement loop. *)
Record wf (c : Compiler) : Prop := {
  wf_patch o v :
    patches c !! o = Some v ->
    (o + 4 <= length (code c))%nat /\ window o (code c) = PutUint32 (uint32 v);
  wf_target o s :
    labelTargets c !! o = Some s ->
    (1 <= o)%nat /\ (o + 4 <= length (code c))%nat
    /\ code c !! (o - 1)%nat = Some 0x68
    /\ window o (code c) = [0; 0; 0; 0];
  wf_apart o o' : isPatch c o -> isPatch c o' -> o <> o' -> apart o o';
  wf_kinds o : is_Some (patches c !! o) -> labelTargets c !! o = None
}.

(** What one statement that succeeds does to the code buffer and to the two
    patch maps: it appends bytes, or it appends an opcode prefix and a 32-bit
    immediate and records a data patch on the immediate, or it appends the
    push opcode and four zero bytes and records a label patch on them. *)
Inductive shape (c c' : Compiler) : Prop :=
| shape_append (bs : list Z) :
    code c' = code c ++ bs ->
    patches c' = patches c ->
    labelTargets c' = labelTargets c ->
    shape c c'
| shape_patch (pre : list Z) (v : Z) :
    code c' = code c ++ pre ++ PutUint32 (uint32 v) ->
    patches c' = <[(length (code c) + length pre)%nat := v]> (patches c) ->
    labelTargets c' = labelTargets c ->
    shape c c'
| shape_target (s : string) :
    code c' = code c ++ [0x68] ++ [0; 0; 0; 0] ->
    patches c' = patches c ->
    labelTargets c' = <[S (length (code c)) := s]> (labelTargets c) ->
    shape c c'.

(** The opcode prefix [assembleMov] emits for a register, if it has one. *)
Definition movOpcode (r : string) : option (list Z) :=
  if decide (r = "rax") then Some [0x48; 0xc7; 0xc0]
  else if decide (r = "rbx") then Some [0x48; 0xc7; 0xc3]
  else if decide (r = "rcx") then Some [0x48; 0xc7; 0xc1]
  else if decide (r = "rdx") then Some [0x48; 0xc7; 0xc2]
  else None.

(** The state after a [mov] of the number [val] into a register with opcode
    [prefix]; [label] tells whether the number stands for a data block. *)
Definition emitMov (prefix : list Z) (val : Z) (label : bool) (c : Compiler) : Compiler :=
  let c1 := setCode (code c ++ prefix) c in
  let c2 :=
    if label then setPatches (<[length (code c1) := val]> (patches c1)) c1 else c1 in
  setCode (code c2 ++ PutUint32 (uint32 val)) c2.

(** The decimal NUMBER token [assembleMov] puts in place of an identifier. *)
Definition decimalToken (val : Z) : Token :=
  {| Typ := NUMBER; Literal := strconv.Sprintf_d val |}.

(** Writes whose windows are pairwise apart. *)
Definition separate (ws : list (nat * Z)) : Prop :=
  NoDup ws.*1 /\ forall w w', w ∈ ws -> w' ∈ ws -> w.1 <> w'.1 -> apart w.1 w'.1.

(** What no instruction touches: the data buffer, the two symbol tables and
    the output path. *)
Definition frame (c c' : Compiler) : Prop :=
  data c' = data c /\ dataOffsets c' = dataOffsets c /\ labels c' = labels c
  /\ output c' = output c.

(** The four registers of the encoders. *)
Definition registers : list string := ["rax"; "rbx"; "rcx"; "rdx"].

(** The number of a register in an x86-64 ModRM byte. *)
Definition regNumber (r : string) : option Z :=
  if decide (r = "rax") then Some 0
  else if decide (r = "rcx") then Some 1
  else if decide (r = "rdx") then Some 2
  else if decide (r = "rbx") then Some 3
  else None.

(** [stmt] declares the data block [name]. *)
Definition declares (name : string) (stmt : Node) : Prop :=
  match stmt with
  | Data n _ => n = name
  | _ => False
  end.

(** [stmt] defines the label [name]. *)
Definition defines (name : string) (stmt : Node) : Prop :=
  match stmt with
  | Label n => n = name
  | _ => False
  end.

(** What the rest of the stream keeps of a state: its patches, and its code
    as a prefix. *)
Definition extends (c c' : Compiler) : Prop :=
  (forall o v, patches c !! o = Some v -> patches c' !! o = Some v)
  /\ (forall o s, labelTargets c !! o = Some s -> labelTargets c' !! o = Some s)
  /\ exists bs : list Z, code c' = code c ++ bs.

(** ** Tokens and streams for examples *)

Definition reg (r : string) : Token := {| Typ := REGISTER; Literal := r |}.
Definition num (n : string) : Token := {| Typ := NUMBER; Literal := n |}.
Definition ident (s : string) : Token := {| Typ := IDENTIFIER; Literal := s |}.
Definition instr (mnemonic : string) (operands : list Token) : Node :=
  Instr {| Name := mnemonic; Operands := operands |}.

(** Two data blocks: ["pad"] at offset 0 and ["msg"] at offset 3. *)
Definition twoBlocks : list Node := [Data "pad" [1; 2; 3]; Data "msg" [4]].

(** A program with a data reference, a forward label reference and a
    reference to a label that is never defined. *)
Definition sample : list Node :=
  twoBlocks ++
  [ instr "mov" [reg "rax"; ident "msg"];
    instr "push" [ident "done"];
    instr "push" [ident "nowhere"];
    instr "add" [reg "rax"; reg "rbx"];
    Label "done";
    instr "int" [num "0x80"];
    instr "ret" [] ].

(** An ELF writer that never fails. *)
Definition writeOk : string -> list Z -> list Z -> option string :=
  fun _ _ _ => None.

(** The state of [sample] when its stream is drained. *)
Definition sampleDrained : Compiler := (statements sample New).1.

(** ** Notions of the further statements *)

(** A value a Go [byte] can hold. *)
Definition isByte (b : Z) : Prop := 0 <= b < 256.

(** What an instruction does at most, whatever its outcome: it appends bytes
    to the code, leaves the data, the two symbol tables and the output path
    alone, and records no data patch or one, whose value is an offset held by
    the data table. *)
Definition emits (c c' : Compiler) : Prop :=
  (exists bs : list Z, Forall isByte bs /\ code c' = code c ++ bs)
  /\ frame c c'
  /\ (patches c' = patches c
      \/ exists o name D,
           dataOffsets c !! name = Some D /\ patches c' = <[o := D]> (patches c)).

(** The mnemonics of [compileInstruction]'s [switch]. *)
Definition mnemonics : list string :=
  ["add"; "dec"; "inc"; "int"; "mov"; "nop"; "push"; "ret"; "sub"; "xor"].

(** The opcode [assembleADD]'s [switch] emits before a number. *)
Definition addOpcode (r : string) : option (list Z) :=
  if decide (r = "rax") then Some [0x48; 0x05]
  else if decide (r = "rbx") then Some [0x48; 0x81; 0xc3]
  else if decide (r = "rcx") then Some [0x48; 0x81; 0xc1]
  else if decide (r = "rdx") then Some [0x48; 0x81; 0xc2]
  else None.

(** The opcode [assembleSUB]'s [switch] emits before a number. *)
Definition subOpcode (r : string) : option (list Z) :=
  if decide (r = "rax") then Some [0x48; 0x2d]
  else if decide (r = "rbx") then Some [0x48; 0x81; 0xeb]
  else if decide (r = "rcx") then Some [0x48; 0x81; 0xe9]
  else if decide (r = "rdx") then Some [0x48; 0x81; 0xea]
  else None.

(** The contents of the data statements of a stream, in the order of the
    stream. *)
Definition dataContents (stream : list Node) : list Z :=
  flat_map (fun stmt => match stmt with Data _ cs => cs | _ => [] end) stream.

(** Every symbol stands for a position inside its buffer (or at its end), and
    every data patch for a position inside the data. *)
Definition symbolsInRange (c : Compiler) : Prop :=
  (forall name D, dataOffsets c !! name = Some D -> 0 <= D <= len (data c))
  /\ (forall name K, labels c !! name = Some K -> 0 <= K <= len (code c))
  /\ (forall o v, patches c !! o = Some v -> 0 <= v <= len (data c)).

(** The number a little-endian sequence of bytes stands for. *)
Fixpoint littleEndian (bs : list Z) : Z :=
  match bs with
  | [] => 0
  | b :: bs' => b + 256 * littleEndian bs'
  end.

(** The outcomes by which an instruction with a known mnemonic is refused:
    a panic, on reading an operand that is not there, which takes fewer than
    two operands; or an error, which is not the error of an unknown
    mnemonic. *)
Definition refusal (i : Instruction) (r : res unit) : Prop :=
  match r with
  | Val _ => False
  | Panic => (length (Operands i) < 2)%nat
  | Err (ErrUnknownInstruction _) => False
  | Err _ => True
  end.

(** ** Number conversion on examples *)

Example ParseInt_hex : strconv.ParseInt "0x80" 0 64 = (128, None).
Proof. reflexivity. Qed.
Example ParseInt_neg : strconv.ParseInt "-12" 0 64 = (-12, None).
Proof. reflexivity. Qed.
Example ParseInt_octal : strconv.ParseInt "017" 0 64 = (15, None).
Proof. reflexivity. Qed.
Example ParseInt_us : strconv.ParseInt "1_000" 0 64 = (1000, None).
Proof. reflexivity. Qed.
Example ParseInt_us_bad : strconv.ParseInt "1__0" 0 64 = (0, Some strconv.ErrSyntax).
Proof. reflexivity. Qed.
Example ParseInt_word : strconv.ParseInt "rax" 0 64 = (0, Some strconv.ErrSyntax).
Proof. reflexivity. Qed.
Example ParseInt_max : strconv.ParseInt "9223372036854775808" 0 64
  = (9223372036854775807, Some strconv.ErrRange).
Proof. vm_compute. reflexivity. Qed.
Example ParseInt_min : strconv.ParseInt "-9223372036854775808" 0 64
  = (-9223372036854775808, None).
Proof. vm_compute. reflexivity. Qed.
Example Sprintf_d_ex : strconv.Sprintf_d 1024 = "1024" /\ strconv.Sprintf_d 0 = "0"
  /\ strconv.Sprintf_d (-70) = "-70".
Proof. vm_compute. auto. Qed.
Example Atoi_ex : strconv.Atoi "1024" = (1024, None) /\ strconv.Atoi "-7" = (-7, None)
  /\ strconv.Atoi "x" = (0, Some strconv.ErrSyntax).
Proof. vm_compute. auto. Qed.

(** ** Decimal printing and parsing *)

Section Decimal.
Import strconv.

Ltac solve_zb :=
  rewrite ?Z.geb_leb, ?Z.gtb_ltb;
  first [apply Z.leb_le | apply Z.leb_gt | apply Z.ltb_lt | apply Z.ltb_ge
        | apply Z.eqb_eq | apply Z.eqb_neq];
  lia.
Ltac zb_is b e := replace e with b by (symmetry; solve_zb).

Lemma ord_digitChar d : 0 <= d <= 9 -> ord (digitChar d) = 48 + d.
Proof.
  intros Hd.
  assert (d = 0 \/ d = 1 \/ d = 2 \/ d = 3 \/ d = 4 \/ d = 5 \/ d = 6
          \/ d = 7 \/ d = 8 \/ d = 9) as Hc by lia.
  repeat (destruct Hc as [-> | Hc]; [reflexivity |]). subst d. reflexivity.
Qed.

Lemma digitVal_digit d : 0 <= d <= 9 -> digitVal (48 + d) = Some d.
Proof.
  intros Hd. unfold digitVal.
  assert ((48 <=? 48 + d) && (48 + d <=? 57) = true) as ->.
  { apply andb_true_iff. split; apply Z.leb_le; lia. }
  f_equal. lia.
Qed.

Lemma mod10_digit u : 0 <= u mod 10 <= 9.
Proof. pose proof (Z.mod_pos_bound u 10). lia. Qed.

(** One turn of the digit loop on a decimal digit. *)
Lemma digitsLoop_digit b d rest n us :
  0 <= d <= 9 -> 0 <= n ->
  digitsLoop b 10 cutoff10 maxUint64 (String (digitChar d) rest) n us =
    if n * 10 + d <=? maxUint64
    then digitsLoop b 10 cutoff10 maxUint64 rest (n * 10 + d) us
    else LoopErr maxUint64 ErrRange.
Proof.
  intros Hd Hn. cbn [digitsLoop]. rewrite ord_digitChar by done.
  zb_is false (48 + d =? 95).
  cbn [andb]. rewrite digitVal_digit by done.
  change (byte 10) with 10. zb_is false (d >=? 10).
  unfold cutoff10, maxUint64, uint64.
  change (2 ^ 64) with 18446744073709551616.
  change ((18446744073709551616 - 1) / 10 + 1) with 1844674407370955162.
  change (18446744073709551616 - 1) with 18446744073709551615.
  destruct (Z_lt_le_dec n 1844674407370955162) as [Hc | Hc].
  2: { zb_is true (n >=? 1844674407370955162).
       zb_is false (n * 10 + d <=? 18446744073709551615). done. }
  zb_is false (n >=? 1844674407370955162).
  rewrite (Z.mod_small (n * 10)) by lia.
  destruct (Z.leb_spec (n * 10 + d) 18446744073709551615) as [Hm | Hm].
  - rewrite Z.mod_small by lia.
    zb_is false (n * 10 + d <? n * 10).
    zb_is false (n * 10 + d >? 18446744073709551615). done.
  - replace ((n * 10 + d) mod 18446744073709551616)
      with (n * 10 + d - 18446744073709551616)
      by (apply Z.mod_unique with 1; lia).
    zb_is true (n * 10 + d - 18446744073709551616 <? n * 10). done.
Qed.

Lemma pow2_succ (fuel : nat) : 2 ^ Z.of_nat (S fuel) = 2 * 2 ^ Z.of_nat fuel.
Proof. rewrite Nat2Z.inj_succ. apply Z.pow_succ_r. lia. Qed.

Lemma div10_mod10 u : u / 10 * 10 + u mod 10 = u.
Proof. pose proof (Z.div_mod u 10). lia. Qed.

(** Parsing the digits [formatBits] wrote gives the number back, or a
    range error when it does not fit 64 bits. *)
Lemma formatBits_digitsLoop b us fuel : forall u acc,
  0 <= u < 2 ^ Z.of_nat fuel ->
  digitsLoop b 10 cutoff10 maxUint64 (formatBits fuel u acc) 0 us =
    if u <=? maxUint64 then digitsLoop b 10 cutoff10 maxUint64 acc u us
    else LoopErr maxUint64 ErrRange.
Proof.
  induction fuel as [| fuel IH]; intros u acc Hu.
  - change (2 ^ Z.of_nat 0) with 1 in Hu. assert (u = 0) as -> by lia. done.
  - rewrite pow2_succ in Hu. cbn [formatBits].
    pose proof (mod10_digit u) as Hd. pose proof (div10_mod10 u) as Hdm.
    destruct (Z.eqb_spec (u / 10) 0) as [Hq | Hq].
    + rewrite digitsLoop_digit by (done || lia).
      replace (0 * 10 + u mod 10) with u by lia. done.
    + assert (0 <= u / 10 < 2 ^ Z.of_nat fuel) as Hu' by lia.
      rewrite IH by done.
      assert (0 <= u / 10) as Hq0 by lia.
      rewrite digitsLoop_digit by done. rewrite Hdm.
      destruct (Z.leb_spec (u / 10) maxUint64) as [Hm | Hm]; [done |].
      zb_is false (u <=? maxUint64). done.
Qed.

(** A positive number is written with a leading digit other than zero. *)
Lemma formatBits_head fuel : forall u acc,
  0 < u < 2 ^ Z.of_nat fuel ->
  exists d rest, 1 <= d <= 9 /\ formatBits fuel u acc = String (digitChar d) rest.
Proof.
  induction fuel as [| fuel IH]; intros u acc Hu.
  - change (2 ^ Z.of_nat 0) with 1 in Hu. lia.
  - rewrite pow2_succ in Hu. cbn [formatBits].
    pose proof (mod10_digit u) as Hd. pose proof (div10_mod10 u) as Hdm.
    destruct (Z.eqb_spec (u / 10) 0) as [Hq | Hq].
    + exists (u mod 10), acc. split; [lia | done].
    + apply IH. lia.
Qed.

Lemma formatBits_atoiLoop fuel : forall u acc,
  0 <= u < 2 ^ Z.of_nat fuel -> u < 2 ^ 63 ->
  atoiLoop (formatBits fuel u acc) 0 = atoiLoop acc u.
Proof.
  induction fuel as [| fuel IH]; intros u acc Hu H63.
  - change (2 ^ Z.of_nat 0) with 1 in Hu. assert (u = 0) as -> by lia. done.
  - rewrite pow2_succ in Hu. cbn [formatBits].
    pose proof (mod10_digit u) as Hd. pose proof (div10_mod10 u) as Hdm.
    assert (forall n, 0 <= n -> n * 10 + u mod 10 = u ->
              atoiLoop (String (digitChar (u mod 10)) acc) n = atoiLoop acc u) as Hstep.
    { intros n Hn Hnu. cbn [atoiLoop]. rewrite ord_digitChar by done.
      replace (48 + u mod 10 - 48) with (u mod 10) by lia.
      unfold byte. rewrite (Z.mod_small (u mod 10)) by (change (2 ^ 8) with 256; lia).
      zb_is false (u mod 10 >? 9). rewrite Hnu. unfold int64.
      change (2 ^ 63) with 9223372036854775808 in *.
      rewrite Z.mod_small by (change (2 ^ 64) with 18446744073709551616; lia).
      f_equal. lia. }
    destruct (Z.eqb_spec (u / 10) 0) as [Hq | Hq].
    + apply Hstep; lia.
    + rewrite IH by lia. apply Hstep; lia.
Qed.

Lemma fuelFor_enough u : 0 <= u -> 0 <= u < 2 ^ Z.of_nat (fuelFor u).
Proof.
  intros Hu. unfold fuelFor. rewrite Nat2Z.inj_succ, Z2Nat.id by apply Z.log2_nonneg.
  destruct (Z.eq_dec u 0) as [-> | Hne]; [done |].
  pose proof (Z.log2_spec u). lia.
Qed.

Lemma formatBits_head0 fuel u acc :
  0 <= u ->
  exists d rest, 0 <= d <= 9 /\ formatBits (S fuel) u acc = String (digitChar d) rest.
Proof.
  intros Hu. cbn [formatBits]. pose proof (mod10_digit u) as Hd.
  destruct (u / 10 =? 0); [by eauto |].
  revert acc. generalize (u / 10). generalize (u mod 10) Hd. clear.
  induction fuel as [| fuel IH]; intros d Hd q acc; cbn [formatBits]; [by eauto |].
  destruct (q / 10 =? 0); [| apply IH]; eauto using mod10_digit.
Qed.

Lemma ParseUint_decimal base bitSize c rest :
  decimalCall base bitSize -> ord c <> 48 ->
  ParseUint (String c rest) base bitSize =
    match digitsLoop (base =? 0) 10 cutoff10 maxUint64 (String c rest) 0 false with
    | LoopErr v e => (v, Some e)
    | LoopDone n us =>
      if us && negb (underscoreOK (String c rest)) then (0, Some ErrSyntax)
      else (n, None)
    end.
Proof.
  intros [[-> ->] | [-> ->]] Hc; [| reflexivity].
  apply Z.eqb_neq in Hc. unfold ParseUint, pickBase. rewrite Hc. reflexivity.
Qed.

Lemma ParseUint_format base bitSize u :
  decimalCall base bitSize -> 0 <= u ->
  ParseUint (formatBits (fuelFor u) u EmptyString) base bitSize =
    if u <=? maxUint64 then (u, None) else (maxUint64, Some ErrRange).
Proof.
  intros Hcall Hu. destruct (Z.eq_dec u 0) as [-> | Hne].
  { destruct Hcall as [[-> ->] | [-> ->]]; reflexivity. }
  pose proof (fuelFor_enough u Hu) as Hfuel.
  destruct (formatBits_head (fuelFor u) u EmptyString) as (d & rest & Hd & Hs); [lia |].
  pose proof (formatBits_digitsLoop (base =? 0) false _ u EmptyString Hfuel) as Hloop.
  rewrite Hs in Hloop |- *.
  rewrite ParseUint_decimal, Hloop by (done || rewrite ord_digitChar; lia).
  by destruct (u <=? maxUint64).
Qed.

Lemma ParseInt_unsigned base bitSize c rest :
  decimalCall base bitSize -> ord c <> 45 -> ord c <> 43 ->
  ParseInt (String c rest) base bitSize =
    match ParseUint (String c rest) base bitSize with
    | (_, Some ErrSyntax) => (0, Some ErrSyntax)
    | (_, Some ErrBase) => (0, Some ErrBase)
    | (_, Some ErrBitSize) => (0, Some ErrBitSize)
    | (un, _) =>
      if un >=? 2 ^ 63 then (2 ^ 63 - 1, Some ErrRange) else (int64 un, None)
    end.
Proof.
  intros Hcall H45 H43. apply Z.eqb_neq in H45, H43.
  unfold ParseInt. rewrite H45, H43. cbn [orb negb andb].
  destruct (ParseUint (String c rest) base bitSize) as [un [[] |]];
    destruct Hcall as [[-> ->] | [-> ->]]; reflexivity.
Qed.

Lemma ParseInt_negative base bitSize rest :
  decimalCall base bitSize ->
  ParseInt (String "-" rest) base bitSize =
    match ParseUint rest base bitSize with
    | (_, Some ErrSyntax) => (0, Some ErrSyntax)
    | (_, Some ErrBase) => (0, Some ErrBase)
    | (_, Some ErrBitSize) => (0, Some ErrBitSize)
    | (un, _) =>
      if un >? 2 ^ 63 then (- 2 ^ 63, Some ErrRange)
      else (int64 (- int64 un), None)
    end.
Proof.
  intros Hcall. unfold ParseInt. change (ord "-" =? 45) with true.
  change (ord "-" =? 43) with false.
  cbn [orb negb andb].
  destruct (ParseUint rest base bitSize) as [un [[] |]];
    destruct Hcall as [[-> ->] | [-> ->]]; reflexivity.
Qed.

Lemma int64_small v : - 2 ^ 63 <= v < 2 ^ 63 -> int64 v = v.
Proof.
  intros Hv. unfold int64. change (2 ^ 63) with 9223372036854775808 in *.
  rewrite Z.mod_small by (change (2 ^ 64) with 18446744073709551616; lia). lia.
Qed.

Lemma int64_min : int64 (2 ^ 63) = - 2 ^ 63.
Proof. reflexivity. Qed.

(** [ParseInt] on the decimal text of [v], for the two ways the compiler
    and [Atoi] call it. *)
Lemma ParseInt_Sprintf_d_gen base bitSize v :
  decimalCall base bitSize ->
  ParseInt (Sprintf_d v) base bitSize =
    if v <? - 2 ^ 63 then (- 2 ^ 63, Some ErrRange)
    else if v <? 2 ^ 63 then (v, None)
    else (2 ^ 63 - 1, Some ErrRange).
Proof.
  intros Hcall. unfold Sprintf_d. fold (fuelFor (Z.abs v)).
  change (- 2 ^ 63) with (-9223372036854775808).
  change (2 ^ 63) with 9223372036854775808.
  destruct (Z.ltb_spec v 0) as [Hneg | Hpos].
  - rewrite ParseInt_negative, ParseUint_format by (done || lia).
    unfold maxUint64. change (2 ^ 64 - 1) with 18446744073709551615.
    change (2 ^ 63) with 9223372036854775808.
    destruct (Z.leb_spec (Z.abs v) 18446744073709551615) as [Hm | Hm].
    + destruct (Z.ltb_spec v (- 9223372036854775808)) as [Hr | Hr].
      * zb_is true (Z.abs v >? 9223372036854775808). reflexivity.
      * zb_is false (Z.abs v >? 9223372036854775808).
        zb_is true (v <? 9223372036854775808). f_equal.
        destruct (Z.eq_dec v (- 9223372036854775808)) as [-> | Hne]; [reflexivity |].
        rewrite (int64_small (Z.abs v))
          by (change (2 ^ 63) with 9223372036854775808; lia).
        rewrite int64_small by (change (2 ^ 63) with 9223372036854775808; lia).
        lia.
    + zb_is true (v <? - 9223372036854775808). reflexivity.
  - zb_is false (v <? - 9223372036854775808).
    rewrite Z.abs_eq by done.
    destruct (formatBits_head0 (Z.to_nat (Z.log2 v)) v EmptyString Hpos) as (d & rest & Hd & Hs).
    pose proof (ParseUint_format base bitSize v Hcall Hpos) as HU.
    unfold fuelFor in *. rewrite Hs in HU |- *.
    rewrite ParseInt_unsigned, HU by (done || rewrite ord_digitChar; lia).
    unfold maxUint64. change (2 ^ 64 - 1) with 18446744073709551615.
    change (2 ^ 63) with 9223372036854775808.
    destruct (Z.leb_spec v 18446744073709551615) as [Hm | Hm].
    + destruct (Z.ltb_spec v 9223372036854775808) as [Hr | Hr].
      * zb_is false (v >=? 9223372036854775808).
        rewrite int64_small by (change (2 ^ 63) with 9223372036854775808; lia).
        done.
      * zb_is true (v >=? 9223372036854775808). done.
    + zb_is false (v <? 9223372036854775808). reflexivity.
Qed.

Lemma ParseInt_Sprintf_d v :
  - 2 ^ 63 <= v < 2 ^ 63 -> ParseInt (Sprintf_d v) 0 64 = (v, None).
Proof.
  intros Hv. rewrite ParseInt_Sprintf_d_gen by (left; done).
  zb_is false (v <? - 2 ^ 63). zb_is true (v <? 2 ^ 63). done.
Qed.

(** When [ParseInt] accepts the decimal text of [v], it returns [v], and
    [v] is a 64-bit integer. *)
Lemma ParseInt_Sprintf_d_inv v n :
  ParseInt (Sprintf_d v) 0 64 = (n, None) -> n = v /\ - 2 ^ 63 <= v < 2 ^ 63.
Proof.
  rewrite ParseInt_Sprintf_d_gen by (left; done).
  destruct (Z.ltb_spec v (- 2 ^ 63)); [done |].
  destruct (Z.ltb_spec v (2 ^ 63)); [| done].
  intros [= ->]. lia.
Qed.

Lemma Sprintf_d_nonneg v :
  0 <= v -> Sprintf_d v = formatBits (fuelFor v) v EmptyString.
Proof.
  intros Hv. unfold Sprintf_d. zb_is false (v <? 0). by rewrite Z.abs_eq.
Qed.

Lemma Sprintf_d_neg v :
  v < 0 -> Sprintf_d v = String "-" (formatBits (fuelFor (- v)) (- v) EmptyString).
Proof.
  intros Hv. unfold Sprintf_d. zb_is true (v <? 0).
  by rewrite <- Z.abs_neq by lia.
Qed.

(** [Atoi] reads the decimal text of a 64-bit integer back, on its fast
    path and on its slow one. *)
Lemma Atoi_Sprintf_d v :
  - 2 ^ 63 <= v < 2 ^ 63 -> Atoi (Sprintf_d v) = (v, None).
Proof.
  intros Hv.
  assert (ParseInt (Sprintf_d v) 10 0 = (v, None)) as Hslow.
  { rewrite ParseInt_Sprintf_d_gen by (right; done).
    zb_is false (v <? - 2 ^ 63). zb_is true (v <? 2 ^ 63). done. }
  unfold Atoi.
  destruct ((0 <? Z.of_nat (String.length (Sprintf_d v)))
            && (Z.of_nat (String.length (Sprintf_d v)) <? 19)); [| done].
  clear Hslow. destruct (Z_lt_le_dec v 0) as [Hneg | Hpos].
  - destruct (Z.eq_dec v (- 2 ^ 63)) as [-> | Hne]; [reflexivity |].
    rewrite Sprintf_d_neg by done.
    change (ord "-" =? 45) with true. cbn [orb andb].
    pose proof (fuelFor_enough (- v)) as Hfuel.
    destruct (formatBits_head (fuelFor (- v)) (- v) EmptyString) as (d & rest & Hd & Hs); [lia |].
    pose proof (formatBits_atoiLoop (fuelFor (- v)) (- v) EmptyString) as HL.
    rewrite Hs in HL |- *. cbn [String.length Nat.eqb]. rewrite HL by lia.
    cbn [atoiLoop]. f_equal. rewrite Z.opp_involutive. by apply int64_small.
  - rewrite Sprintf_d_nonneg by done.
    pose proof (fuelFor_enough v Hpos) as Hfuel.
    destruct (formatBits_head0 (Z.to_nat (Z.log2 v)) v EmptyString Hpos) as (d & rest & Hd & Hs).
    pose proof (formatBits_atoiLoop (fuelFor v) v EmptyString) as HL.
    unfold fuelFor in *. rewrite Hs in HL |- *.
    rewrite ord_digitChar by done.
    zb_is false (48 + d =? 45). zb_is false (48 + d =? 43). cbn [orb andb].
    rewrite HL by lia. done.
Qed.
End Decimal.

(** ** Running the encoders *)

Ltac unfold_M :=
  unfold try, operand, appendCode, recordPatch, recordLabelTarget, recordLabel,
    Printf, handleData, mbind, M_bind, mret, M_ret, fail, panic, get in *.

Ltac crunch := repeat (case_match; simplify_eq; try done); simplify_eq.

Ltac fields :=
  cbn [code data dataOffsets patches labels labelTargets stdout output
       setCode setData setDataOffsets setPatches setLabels setLabelTargets
       setStdout] in *.

Lemma shape_refl c c' :
  code c' = code c -> patches c' = patches c -> labelTargets c' = labelTargets c ->
  shape c c'.
Proof. intros. apply shape_append with []; by rewrite ?app_nil_r. Qed.

Ltac appended :=
  first
    [ apply shape_refl; reflexivity
    | eapply shape_append; fields;
      [ rewrite <- ?app_assoc; reflexivity | reflexivity | reflexivity ] ].

Ltac framed := split; [| repeat split; reflexivity].

Lemma assembleADD_shape i c c' :
  assembleADD i c = (c', Val tt) -> shape c c' /\ frame c c'.
Proof.
  unfold assembleADD. unfold_M.
  destruct (Operands i !! 0%nat) as [a |]; [| done].
  destruct (Operands i !! 1%nat) as [b |]; [| done].
  destruct (codesADD !! (Literal a, Literal b)) as [bytes |].
  { intros [= <-]. framed; appended. }
  case_decide; [| done].
  destruct (argToByteArray b) as [n [e |]]; [done |].
  repeat case_decide; intros [= <-]; framed; appended.
Qed.

Lemma assembleSUB_shape i c c' :
  assembleSUB i c = (c', Val tt) -> shape c c' /\ frame c c'.
Proof.
  unfold assembleSUB. unfold_M.
  destruct (Operands i !! 0%nat) as [a |]; [| done].
  destruct (Operands i !! 1%nat) as [b |]; [| done].
  destruct (codesSUB !! (Literal a, Literal b)) as [bytes |].
  { intros [= <-]. framed; appended. }
  case_decide; [| done].
  destruct (argToByteArray b) as [n [e |]]; [done |].
  repeat case_decide; intros [= <-]; framed; appended.
Qed.

Lemma assembleDEC_shape i c c' :
  assembleDEC i c = (c', Val tt) -> shape c c' /\ frame c c'.
Proof. unfold assembleDEC. unfold_M. intros H. crunch; framed; appended. Qed.

Lemma assembleINC_shape i c c' :
  assembleINC i c = (c', Val tt) -> shape c c' /\ frame c c'.
Proof. unfold assembleINC. unfold_M. intros H. crunch; framed; appended. Qed.

Lemma assembleXOR_shape i c c' :
  assembleXOR i c = (c', Val tt) -> shape c c' /\ frame c c'.
Proof. unfold assembleXOR. unfold_M. intros H. crunch; framed; appended. Qed.

Lemma assemblePush_shape i c c' :
  assemblePush i c = (c', Val tt) -> shape c c' /\ frame c c'.
Proof.
  unfold assemblePush. unfold_M. intros H. crunch; framed; [appended |].
  eapply shape_target; fields; [| reflexivity |].
  - rewrite <- app_assoc. reflexivity.
  - rewrite length_app. cbn [length]. rewrite Nat.add_1_r. reflexivity.
Qed.

(** *** mov *)

Lemma movNumber_run prefix b label c :
  movNumber prefix b label c =
    match argToByteArray b with
    | (_, Some e) => (setCode (code c ++ prefix) c, Err e)
    | (n, None) =>
      let c1 := setCode (code c ++ prefix) c in
      let c2 :=
        if label
        then setPatches (<[length (code c1) := (strconv.Atoi (Literal b)).1]> (patches c1)) c1
        else c1 in
      (setCode (code c2 ++ n) c2, Val tt)
    end.
Proof.
  unfold movNumber. unfold_M.
  destruct (argToByteArray b) as [n [e |]]; destruct label; reflexivity.
Qed.

(** The body by cases on the operands. *)
Lemma assembleMov_body_cases self i label c :
  assembleMov_body self i label c =
    match Operands i with
    | [] => (c, Panic)
    | a :: ops =>
      if decide (Typ a = REGISTER) then
        match ops with
        | [] => (c, Panic)
        | b :: _ =>
          match Typ b with
          | REGISTER =>
            Printf ("TODO: mov reg,reg" +:+ String "010" EmptyString) c
          | NUMBER =>
            match movOpcode (Literal a) with
            | Some prefix => movNumber prefix b label c
            | None => (c, Err (ErrMovUnknownRegister i))
            end
          | IDENTIFIER =>
            match dataOffsets c !! Literal b with
            | Some val =>
              self {| Name := Name i;
                      Operands := <[1%nat := decimalToken val]> (Operands i) |}
                true c
            | None => (c, Err (ErrMovUnknownData b))
            end
          | OTHER => (c, Err (ErrUnknownMOV i))
          end
        end
      else (c, Err (ErrUnknownMOV i))
    end.
Proof.
  unfold assembleMov_body, operandTypes, movOpcode. unfold_M.
  destruct (Operands i) as [| a [| b rest]] eqn:Hops; cbn [lookup list_lookup].
  - done.
  - by case_decide.
  - case_decide; [| done].
    destruct (Typ b) eqn:Hb;
      rewrite ?bool_decide_eq_false_2 by done;
      rewrite ?bool_decide_eq_true_2 by done; try done.
    all: repeat case_decide; try done.
    by destruct (dataOffsets c !! Literal b).
Qed.

(** The number branch does not make the recursive call. *)
Lemma assembleMov_body_number self self' i label b c :
  Operands i !! 1%nat = Some b -> Typ b = NUMBER ->
  assembleMov_body self i label c = assembleMov_body self' i label c.
Proof.
  intros Hb Hnum. rewrite !assembleMov_body_cases.
  destruct (Operands i) as [| a [| b' rest]]; try done.
  cbn [lookup list_lookup] in Hb. simplify_eq. by rewrite Hnum.
Qed.

(** The body uses [self] only on an instruction whose second operand is a
    NUMBER. *)
Lemma assembleMov_body_ext self self' i label c :
  (forall i' b' c', Operands i' !! 1%nat = Some b' -> Typ b' = NUMBER ->
                    self i' true c' = self' i' true c') ->
  assembleMov_body self i label c = assembleMov_body self' i label c.
Proof.
  intros Hself. rewrite !assembleMov_body_cases.
  destruct (Operands i) as [| a [| b rest]]; try done.
  case_decide; [| done]. destruct (Typ b); try done.
  destruct (dataOffsets c !! Literal b) as [val |]; [| done].
  by apply Hself with (decimalToken val).
Qed.

(** [assembleMov] satisfies the recursive equation of the method: the two
    unfoldings of its definition never reach the bottom. *)
Lemma assembleMov_unfold i label c :
  assembleMov i label c = assembleMov_body assembleMov i label c.
Proof.
  unfold assembleMov. cbn [assembleMov_depth].
  apply assembleMov_body_ext. intros i' b' c' Hb' Hnum.
  by eapply assembleMov_body_number.
Qed.

Lemma movOpcode_length r prefix : movOpcode r = Some prefix -> length prefix = 3%nat.
Proof. unfold movOpcode. repeat case_decide; by intros [= <-]. Qed.

Lemma assembleMov_number i a b rest prefix label c :
  Operands i = a :: b :: rest ->
  Typ a = REGISTER -> Typ b = NUMBER -> movOpcode (Literal a) = Some prefix ->
  assembleMov i label c = movNumber prefix b label c.
Proof.
  intros Hops Ha Hb Hop.
  rewrite assembleMov_unfold, assembleMov_body_cases, Hops.
  by rewrite decide_True, Hb, Hop.
Qed.

Lemma assembleMov_number_unknown i a b rest label c :
  Operands i = a :: b :: rest ->
  Typ a = REGISTER -> Typ b = NUMBER -> movOpcode (Literal a) = None ->
  assembleMov i label c = (c, Err (ErrMovUnknownRegister i)).
Proof.
  intros Hops Ha Hb Hop.
  rewrite assembleMov_unfold, assembleMov_body_cases, Hops.
  by rewrite decide_True, Hb, Hop.
Qed.

Lemma assembleMov_identifier i a b rest val label c :
  Operands i = a :: b :: rest ->
  Typ a = REGISTER -> Typ b = IDENTIFIER ->
  dataOffsets c !! Literal b = Some val ->
  assembleMov i label c =
    assembleMov {| Name := Name i; Operands := a :: decimalToken val :: rest |} true c.
Proof.
  intros Hops Ha Hb Hval.
  rewrite assembleMov_unfold, assembleMov_body_cases, Hops.
  by rewrite decide_True, Hb, Hval.
Qed.

(** The number branch on the decimal text of [val]: it succeeds exactly when
    [val] is a 64-bit integer, and then emits [val] and records [val]. *)
Lemma movNumber_decimal prefix val label c :
  - 2 ^ 63 <= val < 2 ^ 63 ->
  movNumber prefix (decimalToken val) label c = (emitMov prefix val label c, Val tt).
Proof.
  intros Hval. rewrite movNumber_run. unfold argToByteArray, decimalToken.
  cbn [Literal]. rewrite ParseInt_Sprintf_d, Atoi_Sprintf_d by done. reflexivity.
Qed.

Lemma movNumber_decimal_inv prefix val label c c' :
  movNumber prefix (decimalToken val) label c = (c', Val tt) ->
  - 2 ^ 63 <= val < 2 ^ 63 /\ c' = emitMov prefix val label c.
Proof.
  intros Hrun. assert (- 2 ^ 63 <= val < 2 ^ 63) as Hval.
  { rewrite movNumber_run in Hrun. unfold argToByteArray, decimalToken in Hrun.
    cbn [Literal] in Hrun.
    destruct (strconv.ParseInt (strconv.Sprintf_d val) 0 64) as [n [e |]] eqn:HP;
      [done |].
    by apply ParseInt_Sprintf_d_inv in HP as [_ ?]. }
  rewrite movNumber_decimal in Hrun by done. by simplify_eq.
Qed.

Lemma emitMov_shape prefix val c : shape c (emitMov prefix val false c).
Proof. unfold emitMov. appended. Qed.

Lemma emitMov_shape_label prefix val c : shape c (emitMov prefix val true c).
Proof.
  unfold emitMov. eapply shape_patch; fields; [| | reflexivity].
  - rewrite <- app_assoc. reflexivity.
  - by rewrite length_app.
Qed.

Lemma assembleMov_shape i c c' :
  assembleMov i false c = (c', Val tt) -> shape c c' /\ frame c c'.
Proof.
  rewrite assembleMov_unfold, assembleMov_body_cases.
  destruct (Operands i) as [| a [| b rest]] eqn:Hops; try done.
  { by case_decide. }
  case_decide as Ha; [| done].
  destruct (Typ b) eqn:Hb; try done.
  - unfold Printf. intros [= <-]. framed. by apply shape_refl.
  - destruct (movOpcode (Literal a)) as [prefix |]; [| done].
    rewrite movNumber_run. destruct (argToByteArray b) as [n [e |]]; [done |].
    cbv zeta. intros [= <-]. framed; appended.
  - destruct (dataOffsets c !! Literal b) as [val |] eqn:Hval; [| done].
    cbn [list_insert insert]. intros H.
    destruct (movOpcode (Literal a)) as [prefix |] eqn:Hop.
    + erewrite assembleMov_number in H; [| reflexivity | done | done | done].
      apply movNumber_decimal_inv in H as [_ ->]. framed. apply emitMov_shape_label.
    + erewrite assembleMov_number_unknown in H;
        [done | reflexivity | done | done | done].
Qed.

Lemma compileInstruction_shape i c c' :
  compileInstruction i c = (c', Val tt) -> shape c c' /\ frame c c'.
Proof.
  unfold compileInstruction.
  repeat case_decide;
    eauto using assembleADD_shape, assembleSUB_shape, assembleDEC_shape,
      assembleINC_shape, assembleXOR_shape, assemblePush_shape, assembleMov_shape.
  all: unfold_M; intros Hrun; crunch; framed; appended.
Qed.

Lemma statement_shape stmt c c' :
  statement stmt c = (c', Val tt) -> shape c c'.
Proof.
  destruct stmt; cbn [statement].
  4: { intros Hrun. by apply compileInstruction_shape in Hrun as [? _]. }
  all: unfold_M; intros Hrun; simplify_eq; by apply shape_refl.
Qed.

(** ** Windows of the code buffer *)

Lemma window_lookup o (l : list Z) k :
  window o l !! k = if decide (k < 4)%nat then l !! (o + k)%nat else None.
Proof.
  unfold window. case_decide.
  - by rewrite lookup_take_lt, lookup_drop.
  - apply lookup_take_ge. lia.
Qed.

Lemma window_ext o (l l' : list Z) :
  (forall k, (k < 4)%nat -> l !! (o + k)%nat = l' !! (o + k)%nat) ->
  window o l = window o l'.
Proof.
  intros Hk. apply list_eq. intros k. rewrite !window_lookup. case_decide; auto.
Qed.

Lemma window_app_l o (l l' : list Z) :
  (o + 4 <= length l)%nat -> window o (l ++ l') = window o l.
Proof. intros Ho. apply window_ext. intros k Hk. apply lookup_app_l. lia. Qed.

Lemma window_app_r (l pre bs : list Z) :
  length bs = 4%nat -> window (length l + length pre) (l ++ pre ++ bs) = bs.
Proof.
  intros Hbs. unfold window.
  rewrite app_assoc, drop_app_length' by (rewrite length_app; lia).
  apply take_ge. lia.
Qed.

Lemma length_PutUint32 v : length (PutUint32 v) = 4%nat.
Proof. reflexivity. Qed.

(** ** A resolved patch as a pure update of the buffer *)

Lemma applyWrite_length bs w : length (applyWrite bs w) = length bs.
Proof.
  destruct w as [o x]. unfold applyWrite, PutUint32. cbn [writeBytes fst snd].
  by rewrite !length_insert.
Qed.

Lemma applyWrite_lookup bs w j :
  applyWrite bs w !! j =
    if decide (w.1 <= j < w.1 + 4 /\ j < length bs)%nat
    then PutUint32 (uint32 w.2) !! (j - w.1)%nat
    else bs !! j.
Proof.
  destruct w as [o x]. unfold applyWrite, PutUint32. cbn [writeBytes fst snd].
  rewrite !list_lookup_insert, !length_insert.
  repeat case_decide; try lia; try done.
  - by replace (j - o)%nat with 3%nat by lia.
  - by replace (j - o)%nat with 2%nat by lia.
  - by replace (j - o)%nat with 1%nat by lia.
  - by replace (j - o)%nat with 0%nat by lia.
Qed.

Lemma applyWrite_window bs w :
  (w.1 + 4 <= length bs)%nat ->
  window w.1 (applyWrite bs w) = PutUint32 (uint32 w.2).
Proof.
  intros Hw. apply list_eq. intros k. rewrite window_lookup.
  case_decide as Hk.
  - rewrite applyWrite_lookup. rewrite decide_True by lia.
    f_equal. lia.
  - symmetry. apply lookup_ge_None. rewrite length_PutUint32. lia.
Qed.

Lemma applyWrite_window_apart bs w o :
  apart o w.1 -> window o (applyWrite bs w) = window o bs.
Proof.
  intros Ha. apply window_ext. intros k Hk. rewrite applyWrite_lookup.
  unfold apart in Ha. by rewrite decide_False by lia.
Qed.

Lemma applyWrite_lookup_before bs w j :
  (j < w.1)%nat -> applyWrite bs w !! j = bs !! j.
Proof. intros Hj. rewrite applyWrite_lookup. by rewrite decide_False by lia. Qed.

Lemma applyWrite_comm bs w1 w2 :
  apart w1.1 w2.1 ->
  applyWrite (applyWrite bs w1) w2 = applyWrite (applyWrite bs w2) w1.
Proof.
  intros Ha. apply list_eq. intros j. unfold apart in Ha.
  rewrite !applyWrite_lookup, !applyWrite_length.
  repeat case_decide; done || lia.
Qed.

(** Windows that are apart from every write are left as they were. *)
Lemma applyWrites_window_apart ws : forall bs o,
  (forall w, w ∈ ws -> apart o w.1) ->
  window o (foldl applyWrite bs ws) = window o bs.
Proof.
  induction ws as [| w ws IH]; intros bs o Ha; [done |]. cbn [foldl].
  rewrite IH by (intros; apply Ha; by right).
  apply applyWrite_window_apart, Ha. by left.
Qed.

Lemma applyWrites_length ws : forall bs, length (foldl applyWrite bs ws) = length bs.
Proof.
  induction ws as [| w ws IH]; intros bs; [done |]. cbn [foldl].
  by rewrite IH, applyWrite_length.
Qed.

Lemma apart_sym o o' : apart o o' -> apart o' o.
Proof. unfold apart. lia. Qed.

Lemma separate_cons w ws :
  separate (w :: ws) -> separate ws /\ forall w', w' ∈ ws -> apart w.1 w'.1.
Proof.
  intros [Hnd Hap]. rewrite fmap_cons in Hnd. apply NoDup_cons in Hnd as [Hw Hnd].
  split; [split; [done |] |].
  - intros w1 w2 H1 H2. apply Hap; by right.
  - intros w' Hw'. apply Hap; [by left | by right |].
    intros Heq. apply Hw. rewrite Heq. by apply list_elem_of_fmap_2.
Qed.

Lemma separate_perm ws ws' : ws ≡ₚ ws' -> separate ws -> separate ws'.
Proof.
  intros Hp [Hnd Hap]. split.
  - by rewrite <- Hp.
  - intros w w' Hw Hw'. apply Hap; by rewrite Hp.
Qed.

(** After a run of separate writes, the window of each holds its address. *)
Lemma applyWrites_window_in ws : forall bs o x,
  separate ws -> (o, x) ∈ ws -> (o + 4 <= length bs)%nat ->
  window o (foldl applyWrite bs ws) = PutUint32 (uint32 x).
Proof.
  induction ws as [| w ws IH]; intros bs o x Hsep Hin Hlen.
  { by apply elem_of_nil in Hin. }
  apply separate_cons in Hsep as [Hsep Hw]. cbn [foldl].
  apply elem_of_cons in Hin as [<- | Hin].
  - rewrite applyWrites_window_apart by (intros w' Hw'; by apply Hw).
    by apply (applyWrite_window bs (o, x)).
  - apply IH; [done | done |]. by rewrite applyWrite_length.
Qed.

(** The order of separate writes does not matter. *)
Lemma applyWrites_perm ws ws' :
  ws ≡ₚ ws' -> separate ws ->
  forall bs, foldl applyWrite bs ws = foldl applyWrite bs ws'.
Proof.
  induction 1 as [| w ws ws' Hp IH | w1 w2 ws | ws ws' ws'' Hp IH Hp' IH'];
    intros Hsep bs.
  - done.
  - cbn [foldl]. apply IH. by apply separate_cons in Hsep as [? _].
  - cbn [foldl]. f_equal. symmetry. apply applyWrite_comm.
    apply separate_cons in Hsep as [_ Hw]. apply apart_sym, Hw. by left.
  - rewrite IH by done. apply IH'. by eapply separate_perm.
Qed.

(** ** Running the patch loops *)

Lemma setCode_setCode bs bs' c : setCode bs (setCode bs' c) = setCode bs c.
Proof. reflexivity. Qed.

Lemma storeAt_run o buf : forall i c,
  (i + o + length buf <= length (code c))%nat ->
  storeAt o i buf c = (setCode (writeBytes o i buf (code c)) c, Val tt).
Proof.
  induction buf as [| x buf IH]; intros i c Hlen.
  { by destruct c. }
  cbn [storeAt writeBytes length] in *. unfold mbind, M_bind, store.
  rewrite decide_True by lia.
  rewrite IH by (fields; rewrite length_insert; lia). reflexivity.
Qed.

Lemma dataAddress_setCode bs c v :
  length bs = length (code c) -> dataAddress (setCode bs c) v = dataAddress c v.
Proof. intros Hlen. unfold dataAddress, len. fields. by rewrite Hlen. Qed.

Lemma applyPatch_run o v c :
  (o + 4 <= length (code c))%nat ->
  applyPatch o v c = (setCode (applyWrite (code c) (o, dataAddress c v)) c, Val tt).
Proof.
  intros Hlen. unfold applyPatch. unfold_M.
  by rewrite storeAt_run by (rewrite length_PutUint32; lia).
Qed.

Lemma applyLabelTarget_run o s c :
  (o + 4 <= length (code c))%nat ->
  applyLabelTarget o s c
  = (setCode (applyWrite (code c) (o, labelAddress c s)) c, Val tt).
Proof.
  intros Hlen. unfold applyLabelTarget. unfold_M.
  by rewrite storeAt_run by (rewrite length_PutUint32; lia).
Qed.

Lemma rangeOver_applyPatch ps : forall c,
  (forall p, p ∈ ps -> (p.1 + 4 <= length (code c))%nat) ->
  rangeOver applyPatch ps c
  = (setCode (foldl applyWrite (code c) (map (fun p => (p.1, dataAddress c p.2)) ps)) c,
     Val tt).
Proof.
  induction ps as [| [o v] ps IH]; intros c Hlen.
  { by destruct c. }
  cbn [rangeOver map foldl fst snd]. unfold mbind, M_bind.
  rewrite applyPatch_run by (apply (Hlen (o, v)); by left).
  rewrite IH.
  - fields. rewrite setCode_setCode. do 3 f_equal. apply map_ext. intros p.
    by rewrite dataAddress_setCode by apply applyWrite_length.
  - intros p Hp. fields. rewrite applyWrite_length. apply Hlen. by right.
Qed.

Lemma rangeOver_applyLabelTarget ls : forall c,
  (forall l, l ∈ ls -> (l.1 + 4 <= length (code c))%nat) ->
  rangeOver applyLabelTarget ls c
  = (setCode (foldl applyWrite (code c) (map (fun l => (l.1, labelAddress c l.2)) ls)) c,
     Val tt).
Proof.
  induction ls as [| [o s] ls IH]; intros c Hlen.
  { by destruct c. }
  cbn [rangeOver map foldl fst snd]. unfold mbind, M_bind.
  rewrite applyLabelTarget_run by (apply (Hlen (o, s)); by left).
  rewrite IH; [done |].
  intros l Hl. fields. rewrite applyWrite_length. apply Hlen. by right.
Qed.

(** With every patch in bounds the two loops neither panic nor fail, and
    their effect is the run of writes [writesOf]. *)
Lemma resolve_run ps ls c :
  (forall p, p ∈ ps -> (p.1 + 4 <= length (code c))%nat) ->
  (forall l, l ∈ ls -> (l.1 + 4 <= length (code c))%nat) ->
  resolve ps ls c = (setCode (foldl applyWrite (code c) (writesOf c ps ls)) c, Val tt).
Proof.
  intros Hps Hls. unfold resolve, mbind, M_bind.
  rewrite rangeOver_applyPatch by done.
  rewrite rangeOver_applyLabelTarget
    by (intros l Hl; fields; rewrite applyWrites_length; by apply Hls).
  unfold writesOf. rewrite foldl_app. fields. by rewrite setCode_setCode.
Qed.

(** ** The invariant of the statement loop *)

Lemma wf_New : wf New.
Proof.
  split; unfold isPatch, New; cbn [patches labelTargets code].
  - intros o v Ho. by rewrite lookup_empty in Ho.
  - intros o s Ho. by rewrite lookup_empty in Ho.
  - intros o o' [[? Ho] | [? Ho]]; by rewrite lookup_empty in Ho.
  - intros o [? Ho]. by rewrite lookup_empty in Ho.
Qed.

Lemma wf_isPatch_bound c o :
  wf c -> isPatch c o -> (o + 4 <= length (code c))%nat.
Proof.
  intros Hwf [[v Hv] | [s Hs]].
  - by apply (wf_patch c Hwf) in Hv as [? _].
  - by apply (wf_target c Hwf) in Hs as (_ & ? & _).
Qed.

Lemma wf_shape c c' : wf c -> shape c c' -> wf c'.
Proof.
  intros Hwf [bs Hcode Hp Hl | pre v Hcode Hp Hl | s Hcode Hp Hl].
  - split; rewrite ?Hcode, ?Hp, ?Hl.
    + intros o v Ho. apply (wf_patch c Hwf) in Ho as [Hlen Hwin].
      rewrite length_app, window_app_l by done. split; [lia | done].
    + intros o s Ho. apply (wf_target c Hwf) in Ho as (H1 & Hlen & Hop & Hwin).
      rewrite length_app, window_app_l by done.
      rewrite lookup_app_l by lia. repeat split; (lia || done).
    + unfold isPatch. rewrite Hp, Hl. apply (wf_apart c Hwf).
    + apply (wf_kinds c Hwf).
  - assert (forall o, isPatch c' o ->
              o = (length (code c) + length pre)%nat \/ isPatch c o) as Hcases.
    { unfold isPatch. intros o. rewrite Hp, Hl.
      destruct (decide (o = (length (code c) + length pre)%nat)) as [-> | Hne];
        [by left |].
      rewrite lookup_insert_ne by done. by right. }
    split; rewrite ?Hcode, ?Hl.
    + intros o v' Ho. rewrite Hp in Ho.
      apply lookup_insert_Some in Ho as [[<- <-] | [Hne Ho]].
      * rewrite window_app_r by done. rewrite !length_app, length_PutUint32.
        split; [lia | done].
      * apply (wf_patch c Hwf) in Ho as [Hlen Hwin].
        rewrite length_app, window_app_l by done. split; [lia | done].
    + intros o s Ho. apply (wf_target c Hwf) in Ho as (H1 & Hlen & Hop & Hwin).
      rewrite length_app, window_app_l by done.
      rewrite lookup_app_l by lia. repeat split; (lia || done).
    + intros o o' Ho Ho' Hne. unfold apart.
      apply Hcases in Ho as [-> | Ho]; apply Hcases in Ho' as [-> | Ho'].
      * done.
      * apply (wf_isPatch_bound c _ Hwf) in Ho'. lia.
      * apply (wf_isPatch_bound c _ Hwf) in Ho. lia.
      * by apply (wf_apart c Hwf).
    + intros o [v' Ho]. rewrite Hp in Ho.
      apply lookup_insert_Some in Ho as [[<- <-] | [Hne Ho]].
      * destruct (labelTargets c !! (length (code c) + length pre)%nat) eqn:Ht;
          [| done].
        apply (wf_target c Hwf) in Ht. lia.
      * by apply (wf_kinds c Hwf).
  - assert (forall o, isPatch c' o -> o = S (length (code c)) \/ isPatch c o) as Hcases.
    { unfold isPatch. intros o. rewrite Hp, Hl.
      destruct (decide (o = S (length (code c)))) as [-> | Hne]; [by left |].
      rewrite lookup_insert_ne by done. by right. }
    split; rewrite ?Hcode, ?Hp.
    + intros o v Ho. apply (wf_patch c Hwf) in Ho as [Hlen Hwin].
      rewrite length_app, window_app_l by done. split; [lia | done].
    + intros o s' Ho. rewrite Hl in Ho.
      apply lookup_insert_Some in Ho as [[<- <-] | [Hne Ho]].
      * rewrite !length_app. cbn [length].
        split; [lia |]. split; [lia |]. split.
        -- replace (S (length (code c)) - 1)%nat with (length (code c) + 0)%nat by lia.
           by rewrite lookup_app_r, Nat.add_comm, Nat.add_sub by lia.
        -- replace (S (length (code c)))
             with (length (code c) + length [0x68 : Z])%nat by (cbn [length]; lia).
           by apply window_app_r.
      * apply (wf_target c Hwf) in Ho as (H1 & Hlen & Hop & Hwin).
        rewrite length_app, window_app_l by done.
        rewrite lookup_app_l by lia. repeat split; (lia || done).
    + intros o o' Ho Ho' Hne. unfold apart.
      apply Hcases in Ho as [-> | Ho]; apply Hcases in Ho' as [-> | Ho'].
      * done.
      * apply (wf_isPatch_bound c _ Hwf) in Ho'. lia.
      * apply (wf_isPatch_bound c _ Hwf) in Ho. lia.
      * by apply (wf_apart c Hwf).
    + intros o [v Ho]. rewrite Hl.
      destruct (decide (o = S (length (code c)))) as [-> | Hne].
      * apply (wf_patch c Hwf) in Ho. lia.
      * rewrite lookup_insert_ne by done. apply (wf_kinds c Hwf). by exists v.
Qed.

(** ** The statement loop *)

Lemma statements_cons stmt rest c c' :
  statements (stmt :: rest) c = (c', Val tt) ->
  exists c1, statement stmt c = (c1, Val tt) /\ statements rest c1 = (c', Val tt).
Proof.
  cbn [statements]. unfold mbind, M_bind.
  destruct (statement stmt c) as [c1 [[] | e |]]; [| done | done].
  intros Hrest. by exists c1.
Qed.

Lemma statements_app pre : forall post c c',
  statements (pre ++ post) c = (c', Val tt) ->
  exists c1, statements pre c = (c1, Val tt) /\ statements post c1 = (c', Val tt).
Proof.
  induction pre as [| stmt pre IH]; intros post c c' Hrun.
  { by exists c. }
  rewrite <- app_comm_cons in Hrun.
  apply statements_cons in Hrun as (c0 & Hstmt & Hrun).
  apply IH in Hrun as (c1 & Hpre & Hpost). exists c1. split; [| done].
  cbn [statements]. unfold mbind, M_bind. by rewrite Hstmt.
Qed.

Lemma extends_refl c : extends c c.
Proof. repeat split; try done. exists []. by rewrite app_nil_r. Qed.

Lemma extends_trans c1 c2 c3 : extends c1 c2 -> extends c2 c3 -> extends c1 c3.
Proof.
  intros (Hp & Hl & bs & Hc) (Hp' & Hl' & bs' & Hc'). repeat split; [auto | auto |].
  exists (bs ++ bs'). by rewrite Hc', Hc, app_assoc.
Qed.

Lemma shape_extends c c' : wf c -> shape c c' -> extends c c'.
Proof.
  intros Hwf [bs Hcode Hp Hl | pre v Hcode Hp Hl | s Hcode Hp Hl];
    repeat split; rewrite ?Hp, ?Hl; try done; eauto.
  - intros o v' Ho. rewrite lookup_insert_ne; [done |].
    apply (wf_patch c Hwf) in Ho. lia.
  - intros o s' Ho. rewrite lookup_insert_ne; [done |].
    apply (wf_target c Hwf) in Ho. lia.
Qed.

Lemma statements_wf stream : forall c c',
  wf c -> statements stream c = (c', Val tt) -> wf c' /\ extends c c'.
Proof.
  induction stream as [| stmt stream IH]; intros c c' Hwf Hrun.
  { cbn [statements] in Hrun. unfold_M. simplify_eq. split; [done | apply extends_refl]. }
  apply statements_cons in Hrun as (c1 & Hstmt & Hrun).
  apply statement_shape in Hstmt.
  pose proof (wf_shape _ _ Hwf Hstmt) as Hwf1.
  apply IH in Hrun as [Hwf' Hext]; [| done]. split; [done |].
  eapply extends_trans; [by apply shape_extends | done].
Qed.

(** Only a label statement changes what a label name stands for, and only a
    data statement what a data name stands for. *)
Lemma statement_labels name stmt c c' :
  ~ defines name stmt -> statement stmt c = (c', Val tt) ->
  labels c' !! name = labels c !! name.
Proof.
  intros Hdef. destruct stmt as [n cs | v | n | i |]; cbn [statement defines] in *.
  - unfold_M. intros ?. by simplify_eq.
  - done.
  - unfold_M. intros ?. simplify_eq. fields. by rewrite lookup_insert_ne.
  - intros Hi. apply compileInstruction_shape in Hi as [_ (_ & _ & -> & _)]. done.
  - done.
Qed.

Lemma statement_dataOffsets name stmt c c' :
  ~ declares name stmt -> statement stmt c = (c', Val tt) ->
  dataOffsets c' !! name = dataOffsets c !! name.
Proof.
  intros Hdef. destruct stmt as [n cs | v | n | i |]; cbn [statement declares] in *.
  - unfold_M. intros ?. simplify_eq. fields. by rewrite lookup_insert_ne.
  - done.
  - unfold_M. intros ?. by simplify_eq.
  - intros Hi. apply compileInstruction_shape in Hi as [_ (_ & -> & _ & _)]. done.
  - done.
Qed.

Lemma statements_labels name stream : forall c c',
  Forall (fun stmt => ~ defines name stmt) stream ->
  statements stream c = (c', Val tt) ->
  labels c' !! name = labels c !! name.
Proof.
  induction stream as [| stmt stream IH]; intros c c' Hno Hrun.
  { cbn [statements] in Hrun. unfold_M. by simplify_eq. }
  apply Forall_cons in Hno as [Hstmt Hno].
  apply statements_cons in Hrun as (c1 & H1 & Hrun).
  rewrite (IH _ _ Hno Hrun). by eapply statement_labels.
Qed.

Lemma statements_dataOffsets name stream : forall c c',
  Forall (fun stmt => ~ declares name stmt) stream ->
  statements stream c = (c', Val tt) ->
  dataOffsets c' !! name = dataOffsets c !! name.
Proof.
  induction stream as [| stmt stream IH]; intros c c' Hno Hrun.
  { cbn [statements] in Hrun. unfold_M. by simplify_eq. }
  apply Forall_cons in Hno as [Hstmt Hno].
  apply statements_cons in Hrun as (c1 & H1 & Hrun).
  rewrite (IH _ _ Hno Hrun). by eapply statement_dataOffsets.
Qed.

(** A label stands for the length of the code at its last definition. *)
Lemma labels_defined name s1 s2 c cL c' :
  statements s1 c = (cL, Val tt) ->
  Forall (fun stmt => ~ defines name stmt) s2 ->
  statements (s1 ++ Label name :: s2) c = (c', Val tt) ->
  labels c' !! name = Some (len (code cL)).
Proof.
  intros H1 Hno Hrun. apply statements_app in Hrun as (c1 & H1' & Hrun).
  rewrite H1 in H1'. simplify_eq.
  apply statements_cons in Hrun as (c2 & Hlab & Hrun).
  rewrite (statements_labels _ _ _ _ Hno Hrun).
  cbn [statement] in Hlab. unfold_M. simplify_eq. fields.
  apply lookup_insert_eq.
Qed.

(** A data name stands for the length of the data at its last declaration. *)
Lemma dataOffsets_declared name contents s1 s2 c cD c' :
  statements s1 c = (cD, Val tt) ->
  Forall (fun stmt => ~ declares name stmt) s2 ->
  statements (s1 ++ Data name contents :: s2) c = (c', Val tt) ->
  dataOffsets c' !! name = Some (len (data cD)).
Proof.
  intros H1 Hno Hrun. apply statements_app in Hrun as (c1 & H1' & Hrun).
  rewrite H1 in H1'. simplify_eq.
  apply statements_cons in Hrun as (c2 & Hdat & Hrun).
  rewrite (statements_dataOffsets _ _ _ _ Hno Hrun).
  cbn [statement] in Hdat. unfold_M. simplify_eq. fields.
  apply lookup_insert_eq.
Qed.

(** ** Resolution on a state of the statement loop *)

Lemma uint32_int64 x : uint32 (int64 x) = uint32 x.
Proof.
  unfold uint32, int64. rewrite (Z.mod_eq (x + 2 ^ 63) (2 ^ 64)) by done.
  replace (x + 2 ^ 63 - 2 ^ 64 * ((x + 2 ^ 63) / 2 ^ 64) - 2 ^ 63)
    with (x + (- 2 ^ 32 * ((x + 2 ^ 63) / 2 ^ 64)) * 2 ^ 32)
    by (change (2 ^ 64) with (2 ^ 32 * 2 ^ 32); lia).
  apply Z_mod_plus_full.
Qed.

Lemma dataAddress_uint32 c v :
  uint32 (dataAddress c v) = uint32 (loadBase + v + len (code c) + headerSize).
Proof.
  unfold dataAddress, loadBase, headerSize. rewrite uint32_int64. f_equal. lia.
Qed.

Lemma labelAddress_uint32 c s :
  uint32 (labelAddress c s)
  = uint32 (loadBase + default 0 (labels c !! s) + headerSize).
Proof.
  unfold labelAddress, loadBase, headerSize. rewrite uint32_int64. f_equal. lia.
Qed.

Lemma iteration_elem_of `{Countable K} {V} (m : gmap K V) entries k v :
  iteration m entries -> (k, v) ∈ entries <-> m !! k = Some v.
Proof. unfold iteration. intros ->. apply elem_of_map_to_list. Qed.

Lemma iteration_NoDup `{Countable K} {V} (m : gmap K V) entries :
  iteration m entries -> NoDup entries.*1.
Proof. unfold iteration. intros ->. apply NoDup_fst_map_to_list. Qed.

Lemma writesOf_fst c ps ls : (writesOf c ps ls).*1 = ps.*1 ++ ls.*1.
Proof.
  unfold writesOf. rewrite fmap_app. f_equal.
  - rewrite <- list_fmap_compose. by apply list_fmap_ext.
  - rewrite <- list_fmap_compose. by apply list_fmap_ext.
Qed.

Lemma elem_of_writesOf c ps ls w :
  w ∈ writesOf c ps ls <->
  (exists v, (w.1, v) ∈ ps /\ w.2 = dataAddress c v)
  \/ (exists s, (w.1, s) ∈ ls /\ w.2 = labelAddress c s).
Proof.
  unfold writesOf. rewrite elem_of_app, !list_elem_of_fmap. split.
  - intros [([o v] & -> & Hin) | ([o s] & -> & Hin)]; [left | right]; eauto.
  - destruct w as [o x]. cbn [fst snd].
    intros [(v & Hin & ->) | (s & Hin & ->)]; [left | right].
    + by exists (o, v).
    + by exists (o, s).
Qed.

Section Resolution.
Context (c : Compiler) (ps : list (nat * Z)) (ls : list (nat * string)).
Hypothesis Hwf : wf c.
Hypothesis Hps : iteration (patches c) ps.
Hypothesis Hls : iteration (labelTargets c) ls.

Lemma writesOf_isPatch w : w ∈ writesOf c ps ls -> isPatch c w.1.
Proof.
  rewrite elem_of_writesOf. intros [(v & Hin & _) | (s & Hin & _)].
  - left. exists v. by apply (iteration_elem_of (patches c) ps).
  - right. exists s. by apply (iteration_elem_of (labelTargets c) ls).
Qed.

Lemma writesOf_separate : separate (writesOf c ps ls).
Proof.
  split.
  - rewrite writesOf_fst. apply NoDup_app. split; [by eapply iteration_NoDup |].
    split; [| by eapply iteration_NoDup].
    intros o Hp Hl.
    apply list_elem_of_fmap in Hp as ([o1 v] & -> & Hp).
    apply list_elem_of_fmap in Hl as ([o2 s] & Heq & Hl). cbn [fst] in *. subst o2.
    apply (iteration_elem_of (patches c) ps) in Hp; [| done].
    apply (iteration_elem_of (labelTargets c) ls) in Hl; [| done].
    rewrite (wf_kinds c Hwf o1) in Hl by eauto. done.
  - intros w w' Hw Hw'. apply (wf_apart c Hwf); by apply writesOf_isPatch.
Qed.

(** The two patch loops run to their end, whatever the iteration orders,
    and all they do is the run of writes. *)
Lemma resolve_wf :
  resolve ps ls c
  = (setCode (foldl applyWrite (code c) (writesOf c ps ls)) c, Val tt).
Proof.
  apply resolve_run.
  - intros [o v] Hin. apply (wf_isPatch_bound c o Hwf). left. exists v.
    by apply (iteration_elem_of (patches c) ps).
  - intros [o s] Hin. apply (wf_isPatch_bound c o Hwf). right. exists s.
    by apply (iteration_elem_of (labelTargets c) ls).
Qed.

Lemma resolved_patch o v :
  patches c !! o = Some v ->
  window o (foldl applyWrite (code c) (writesOf c ps ls))
  = PutUint32 (uint32 (loadBase + v + len (code c) + headerSize)).
Proof.
  intros Hv. rewrite <- dataAddress_uint32.
  apply applyWrites_window_in.
  - apply writesOf_separate.
  - apply elem_of_writesOf. left. exists v. split; [| done].
    by apply (iteration_elem_of (patches c) ps).
  - apply (wf_isPatch_bound c o Hwf). left. by exists v.
Qed.

Lemma resolved_target o s :
  labelTargets c !! o = Some s ->
  window o (foldl applyWrite (code c) (writesOf c ps ls))
  = PutUint32 (uint32 (loadBase + default 0 (labels c !! s) + headerSize)).
Proof.
  intros Hs. rewrite <- labelAddress_uint32.
  apply applyWrites_window_in.
  - apply writesOf_separate.
  - apply elem_of_writesOf. right. exists s. split; [| done].
    by apply (iteration_elem_of (labelTargets c) ls).
  - apply (wf_isPatch_bound c o Hwf). right. by exists s.
Qed.

(** Bytes outside every patch window are not touched. *)
Lemma resolved_other j :
  (forall o, isPatch c o -> (j < o \/ o + 4 <= j)%nat) ->
  foldl applyWrite (code c) (writesOf c ps ls) !! j = code c !! j.
Proof.
  intros Hj. pose proof writesOf_isPatch as Hall. revert Hall.
  generalize (writesOf c ps ls) (code c). clear -Hj.
  induction l as [| w ws IH]; intros bs Hall; [done |]. cbn [foldl].
  rewrite IH by (intros; apply Hall; by right).
  rewrite applyWrite_lookup. rewrite decide_False; [done |].
  specialize (Hj w.1 (Hall w ltac:(by left))). lia.
Qed.
End Resolution.

(** ** The register tables *)

Lemma NoDup_values_inj `{Countable K} {V} (m : gmap K V) k1 k2 v :
  NoDup (map_to_list m).*2 -> m !! k1 = Some v -> m !! k2 = Some v -> k1 = k2.
Proof.
  intros Hnd H1 H2. apply elem_of_map_to_list in H1, H2. revert Hnd H1 H2.
  induction (map_to_list m) as [| [k w] l IH]; intros Hnd H1 H2.
  { by apply elem_of_nil in H1. }
  rewrite fmap_cons in Hnd. apply NoDup_cons in Hnd as [Hw Hnd]. cbn [snd] in Hw.
  apply elem_of_cons in H1 as [H1 | H1]; apply elem_of_cons in H2 as [H2 | H2];
    simplify_eq; auto.
  - exfalso. apply Hw. by apply (list_elem_of_fmap_2 snd l (k2, w)).
  - exfalso. apply Hw. by apply (list_elem_of_fmap_2 snd l (k1, w)).
Qed.

Lemma codesADD_NoDup : NoDup (map_to_list codesADD).*2.
Proof. apply (bool_decide_unpack _). by vm_compute. Qed.

Lemma codesSUB_NoDup : NoDup (map_to_list codesSUB).*2.
Proof. apply (bool_decide_unpack _). by vm_compute. Qed.

Ltac table_keys H :=
  repeat (apply lookup_insert_Some in H as [[[= <- <-] _] | [_ H]];
          [split; apply (bool_decide_unpack _); by vm_compute |]);
  by rewrite lookup_empty in H.

Lemma codesADD_keys r s bs :
  codesADD !! (r, s) = Some bs -> r ∈ registers /\ s ∈ registers.
Proof. unfold codesADD, assign. cbn [foldl fst snd]. intros H. table_keys H. Qed.

Lemma codesSUB_keys r s bs :
  codesSUB !! (r, s) = Some bs -> r ∈ registers /\ s ∈ registers.
Proof. unfold codesSUB, assign. cbn [foldl fst snd]. intros H. table_keys H. Qed.

Lemma registers_cases r :
  r ∈ registers -> r = "rax" \/ r = "rbx" \/ r = "rcx" \/ r = "rdx".
Proof. unfold registers. rewrite !elem_of_cons, elem_of_nil. tauto. Qed.

Lemma codes_total r s :
  r ∈ registers -> s ∈ registers ->
  exists add sub,
    codesADD !! (r, s) = Some add /\ length add = 3%nat
    /\ codesSUB !! (r, s) = Some sub /\ length sub = 3%nat.
Proof.
  intros Hr Hs.
  apply registers_cases in Hr as [-> | [-> | [-> | ->]]];
    apply registers_cases in Hs as [-> | [-> | [-> | ->]]];
    eexists _, _; by vm_compute.
Qed.

(** The two tables hold the x86-64 encodings: REX.W, the opcode of
    [add r/m64, r64] or [sub r/m64, r64], and the register-direct ModRM byte
    of the pair. *)
Lemma codes_modrm r s nr ns :
  regNumber r = Some nr -> regNumber s = Some ns ->
  codesADD !! (r, s) = Some [0x48; 0x01; 0xc0 + 8 * ns + nr]
  /\ codesSUB !! (r, s) = Some [0x48; 0x29; 0xc0 + 8 * ns + nr].
Proof.
  unfold regNumber. intros Hr Hs.
  repeat case_decide; simplify_eq; by vm_compute.
Qed.

(** ** The encoders: statements *)

(** C3: for every ordered pair of the four registers, [add r, s] appends the
    3-byte entry of the add table for that pair and [sub r, s] the entry of
    the sub table; no other pair of registers has the same entry in either
    table, so the 16 entries of each table are pairwise distinct. *)
Theorem add_sub_register_pairs i a b rest c :
  Operands i = a :: b :: rest ->
  Literal a ∈ registers -> Literal b ∈ registers ->
  exists add sub,
    codesADD !! (Literal a, Literal b) = Some add /\ length add = 3%nat
    /\ assembleADD i c = (setCode (code c ++ add) c, Val tt)
    /\ codesSUB !! (Literal a, Literal b) = Some sub /\ length sub = 3%nat
    /\ assembleSUB i c = (setCode (code c ++ sub) c, Val tt)
    /\ forall r s, r ∈ registers -> s ∈ registers ->
         (r, s) <> (Literal a, Literal b) ->
         codesADD !! (r, s) <> Some add /\ codesSUB !! (r, s) <> Some sub.
Proof.
  intros Hops Ha Hb.
  destruct (codes_total _ _ Ha Hb) as (add & sub & Hadd & Hla & Hsub & Hls).
  exists add, sub.
  split; [done |]. split; [done |]. split.
  { unfold assembleADD. unfold_M. rewrite Hops. cbn [lookup list_lookup].
    by rewrite Hadd. }
  split; [done |]. split; [done |]. split.
  { unfold assembleSUB. unfold_M. rewrite Hops. cbn [lookup list_lookup].
    by rewrite Hsub. }
  intros r s _ _ Hne. split; intros Hrs; apply Hne.
  - by apply (NoDup_values_inj codesADD _ _ add codesADD_NoDup).
  - by apply (NoDup_values_inj codesSUB _ _ sub codesSUB_NoDup).
Qed.

Lemma add_sub_register_pairs_witness :
  exists add sub,
    codesADD !! ("rax", "rbx") = Some add /\ length add = 3%nat
    /\ assembleADD {| Name := "add"; Operands := [reg "rax"; reg "rbx"] |} New
       = (setCode (code New ++ add) New, Val tt)
    /\ codesSUB !! ("rax", "rbx") = Some sub /\ length sub = 3%nat
    /\ assembleSUB {| Name := "add"; Operands := [reg "rax"; reg "rbx"] |} New
       = (setCode (code New ++ sub) New, Val tt)
    /\ forall r s, r ∈ registers -> s ∈ registers ->
         (r, s) <> ("rax", "rbx") ->
         codesADD !! (r, s) <> Some add /\ codesSUB !! (r, s) <> Some sub.
Proof.
  apply (add_sub_register_pairs {| Name := "add"; Operands := [reg "rax"; reg "rbx"] |}
           (reg "rax") (reg "rbx") [] New).
  - reflexivity.
  - apply (bool_decide_unpack _). vm_compute. exact I.
  - apply (bool_decide_unpack _). vm_compute. exact I.
Defined.

(** C4 (what the code does): a [push] whose single operand is a number never
    gets to emit the opcode: the encoder reads the number from a second
    operand, which is not there, and the run panics with the state
    untouched. *)
Theorem push_number_single_operand mnemonic lit c :
  assemblePush {| Name := mnemonic; Operands := [num lit] |} c = (c, Panic)
  /\ compileInstruction {| Name := "push"; Operands := [num lit] |} c = (c, Panic).
Proof. split; reflexivity. Qed.

(** With a second operand it is that one whose value is encoded. *)
Lemma push_number_second_operand mnemonic lit b n c :
  argToByteArray b = (n, None) ->
  assemblePush {| Name := mnemonic; Operands := [num lit; b] |} c
  = (setCode (code c ++ [0x68] ++ n) c, Val tt).
Proof.
  intros Hn. unfold assemblePush. unfold_M. cbn [Operands lookup list_lookup].
  cbn [num Typ]. rewrite decide_True by done. rewrite Hn. fields.
  by rewrite <- app_assoc.
Qed.

(** [push 5] panics. *)
Example push_5_panics :
  statements [Instr {| Name := "push"; Operands := [num "5"] |}] New = (New, Panic).
Proof. reflexivity. Qed.

(** C7: an [add] whose first operand is a register other than the four, or
    whose operand pair is neither in the register table nor a supported
    register with a number, returns an error and leaves the compiler state,
    code buffer included, exactly as it was. *)
Theorem add_unsupported_operands i a b rest c :
  Operands i = a :: b :: rest ->
  (Typ a = REGISTER /\ Literal a ∉ registers)
  \/ (codesADD !! (Literal a, Literal b) = None
      /\ ~ (Typ a = REGISTER /\ Typ b = NUMBER /\ Literal a ∈ registers)) ->
  exists e,
    assembleADD i c = (c, Err e)
    /\ (Name i = "add" -> compileInstruction i c = (c, Err e)).
Proof.
  intros Hops Hcase.
  assert (codesADD !! (Literal a, Literal b) = None) as Hnone.
  { destruct Hcase as [[_ Hreg] | [Hnone _]]; [| done].
    destruct (codesADD !! (Literal a, Literal b)) as [bs |] eqn:Hbs; [| done].
    by apply codesADD_keys in Hbs as [? _]. }
  assert (exists e, assembleADD i c = (c, Err e)) as [e He].
  { unfold assembleADD. unfold_M. rewrite Hops. cbn [lookup list_lookup].
    rewrite Hnone. case_decide as Hshape; [| by eexists].
    destruct (argToByteArray b) as [n [e |]]; [by eexists |].
    assert (Literal a ∉ registers) as Hreg by (destruct Hcase; tauto).
    unfold registers in Hreg. rewrite !not_elem_of_cons in Hreg.
    destruct Hreg as (? & ? & ? & ? & _).
    repeat (rewrite decide_False by done). by eexists. }
  exists e. split; [done |]. intros Hname.
  unfold compileInstruction. by rewrite decide_True.
Qed.

Lemma add_unsupported_operands_witness :
  exists e,
    assembleADD {| Name := "add"; Operands := [reg "rax"; reg "r9"] |} New
    = (New, Err e)
    /\ ("add" = "add" ->
        compileInstruction {| Name := "add"; Operands := [reg "rax"; reg "r9"] |} New
        = (New, Err e)).
Proof.
  apply (add_unsupported_operands
           {| Name := "add"; Operands := [reg "rax"; reg "r9"] |}
           (reg "rax") (reg "r9") [] New).
  - reflexivity.
  - right. split; [vm_compute; reflexivity |]. intros (_ & Hnum & _). discriminate Hnum.
Defined.

(** [mov 5] has no operand the encoder would read past: it is refused with
    an error; [mov rax] makes the encoder read a second operand and panic. *)
Example mov_single_operand :
  (exists e, statements [instr "mov" [num "5"]] New = (New, Err e))
  /\ statements [instr "mov" [reg "rax"]] New = (New, Panic).
Proof. split; [by eexists | done]. Qed.

(** [add r9, 5]: a register outside the four with a number. *)
Example add_r9_5 :
  exists e, statements [instr "add" [reg "r9"; num "5"]] New = (New, Err e).
Proof. by eexists. Qed.

(** C10: when [id] names a data block at offset [D], [mov r, id] does what
    [mov r, D] does, with [D] written in decimal: the same bytes and the same
    outcome; for the four registers it appends the opcode of [r] and the
    little-endian [D], and records at the offset of the immediate a patch
    whose value is [D] itself, the decimal text of [D] being read back as
    [D] by both parsers. *)
Theorem mov_identifier_as_number i a b rest D c :
  Operands i = a :: b :: rest ->
  Typ a = REGISTER -> Typ b = IDENTIFIER ->
  dataOffsets c !! Literal b = Some D ->
  - 2 ^ 63 <= D < 2 ^ 63 ->
  let iD := {| Name := Name i; Operands := a :: decimalToken D :: rest |} in
  code (assembleMov i false c).1 = code (assembleMov iD false c).1
  /\ (assembleMov i false c).2 = (assembleMov iD false c).2
  /\ strconv.ParseInt (strconv.Sprintf_d D) 0 64 = (D, None)
  /\ strconv.Atoi (strconv.Sprintf_d D) = (D, None)
  /\ forall prefix, movOpcode (Literal a) = Some prefix ->
       exists c',
         assembleMov i false c = (c', Val tt)
         /\ code c' = code c ++ prefix ++ PutUint32 (uint32 D)
         /\ patches c' = <[(length (code c) + 3)%nat := D]> (patches c)
         /\ labelTargets c' = labelTargets c.
Proof.
  intros Hops Ha Hb HD Hrange iD.
  rewrite (assembleMov_identifier i a b rest D false c) by done. fold iD.
  assert (Operands iD = a :: decimalToken D :: rest) as HopsD by done.
  destruct (movOpcode (Literal a)) as [prefix |] eqn:Hop.
  - rewrite !(assembleMov_number iD a (decimalToken D) rest prefix) by done.
    rewrite !movNumber_decimal by done.
    split; [done |]. split; [done |].
    split; [by apply ParseInt_Sprintf_d |]. split; [by apply Atoi_Sprintf_d |].
    intros ? [= <-]. eexists. split; [done |]. unfold emitMov. fields.
    rewrite length_app, (movOpcode_length _ _ Hop).
    split; [by rewrite <- app_assoc |]. done.
  - rewrite !(assembleMov_number_unknown iD a (decimalToken D) rest) by done.
    split; [done |]. split; [done |].
    split; [by apply ParseInt_Sprintf_d |]. split; [by apply Atoi_Sprintf_d |].
    done.
Qed.

Lemma mov_identifier_as_number_witness :
  let c := (statements twoBlocks New).1 in
  let i := {| Name := "mov"; Operands := [reg "rax"; ident "msg"] |} in
  let iD := {| Name := "mov"; Operands := [reg "rax"; decimalToken 3] |} in
  code (assembleMov i false c).1 = code (assembleMov iD false c).1
  /\ (assembleMov i false c).2 = (assembleMov iD false c).2
  /\ strconv.ParseInt (strconv.Sprintf_d 3) 0 64 = (3, None)
  /\ strconv.Atoi (strconv.Sprintf_d 3) = (3, None)
  /\ forall prefix, movOpcode "rax" = Some prefix ->
       exists c',
         assembleMov i false c = (c', Val tt)
         /\ code c' = code c ++ prefix ++ PutUint32 (uint32 3)
         /\ patches c' = <[(length (code c) + 3)%nat := 3]> (patches c)
         /\ labelTargets c' = labelTargets c.
Proof.
  apply (mov_identifier_as_number
           {| Name := "mov"; Operands := [reg "rax"; ident "msg"] |}
           (reg "rax") (ident "msg") [] 3 (statements twoBlocks New).1).
  - reflexivity.
  - reflexivity.
  - reflexivity.
  - vm_compute. reflexivity.
  - lia.
Defined.

(** ** Compile: statements *)

Lemma compileInstruction_mov i c :
  Name i = "mov" -> compileInstruction i c = assembleMov i false c.
Proof. intros Hn. unfold compileInstruction. rewrite Hn. reflexivity. Qed.

Lemma compileInstruction_push i c :
  Name i = "push" -> compileInstruction i c = assemblePush i c.
Proof. intros Hn. unfold compileInstruction. rewrite Hn. reflexivity. Qed.

Lemma assemblePush_identifier i a rest c :
  Operands i = a :: rest -> Typ a = IDENTIFIER ->
  assemblePush i c
  = (setCode (code c ++ [0x68] ++ [0; 0; 0; 0])
       (setLabelTargets (<[S (length (code c)) := Literal a]> (labelTargets c)) c),
     Val tt).
Proof.
  intros Hops Ha. unfold assemblePush. unfold_M. rewrite Hops.
  cbn [lookup list_lookup]. rewrite decide_False by congruence.
  rewrite decide_True by done. fields.
  rewrite length_app, Nat.add_1_r, <- app_assoc. reflexivity.
Qed.

Lemma statements_reachable stream c :
  statements stream New = (c, Val tt) -> wf c.
Proof. intros Hrun. by apply (statements_wf stream New c wf_New). Qed.

(** C9: every patch of either kind present when the stream is drained has
    its four bytes inside the code buffer, so that resolution, whatever the
    iteration orders, runs to its end without an index out of range and
    leaves the length of the buffer as it is. *)
Theorem patch_offsets_in_bounds stream c o :
  statements stream New = (c, Val tt) ->
  isPatch c o ->
  (o + 4 <= length (code c))%nat
  /\ forall ps ls,
       iteration (patches c) ps -> iteration (labelTargets c) ls ->
       exists c',
         resolve ps ls c = (c', Val tt) /\ length (code c') = length (code c).
Proof.
  intros Hrun Ho. apply statements_reachable in Hrun as Hwf.
  split; [by apply wf_isPatch_bound |].
  intros ps ls Hps Hls. eexists. split; [by apply resolve_wf |].
  fields. apply applyWrites_length.
Qed.

(** C5 as stated does not hold: a data patch on a block at offset 3 points
    at the bytes 3, 0, 0, 0. *)
Lemma zero_placeholders_refuted :
  ~ (forall stream c o,
       statements stream New = (c, Val tt) -> isPatch c o ->
       window o (code c) = [0; 0; 0; 0]).
Proof.
  intros Hzero.
  specialize (Hzero (twoBlocks ++ [instr "mov" [reg "rax"; ident "msg"]]) _ 3%nat
                eq_refl).
  assert (window 3 [0x48; 0xc7; 0xc0; 3; 0; 0; 0] = [0; 0; 0; 0]) as Hw.
  { apply Hzero. left. by exists 3. }
  discriminate Hw.
Qed.

(** C5 (amended): when the stream is drained, the four bytes at the offset
    of a label-reference patch are zero, and the four bytes at the offset of
    a data-reference patch are the little-endian encoding of the data offset
    the patch stores. *)
Theorem patch_placeholders stream c :
  statements stream New = (c, Val tt) ->
  (forall o s, labelTargets c !! o = Some s -> window o (code c) = [0; 0; 0; 0])
  /\ (forall o v, patches c !! o = Some v ->
        window o (code c) = PutUint32 (uint32 v)).
Proof.
  intros Hrun. apply statements_reachable in Hrun as Hwf. split.
  - intros o s Ho. by apply (wf_target c Hwf) in Ho as (_ & _ & _ & ?).
  - intros o v Ho. by apply (wf_patch c Hwf) in Ho as [_ ?].
Qed.

(** C6: a label-reference patch whose label is not in the label table does
    not make resolution fail; its four bytes become the little-endian
    encoding of [loadBase + 0 + headerSize]. *)
Theorem missing_label_resolves_to_zero stream c o s ps ls :
  statements stream New = (c, Val tt) ->
  labelTargets c !! o = Some s ->
  labels c !! s = None ->
  iteration (patches c) ps -> iteration (labelTargets c) ls ->
  exists c',
    resolve ps ls c = (c', Val tt)
    /\ window o (code c') = PutUint32 (uint32 (loadBase + 0 + headerSize)).
Proof.
  intros Hrun Ho Hs Hps Hls. apply statements_reachable in Hrun as Hwf.
  eexists. split; [by apply resolve_wf |]. fields.
  rewrite (resolved_target c ps ls Hwf Hps Hls o s Ho). by rewrite Hs.
Qed.

Lemma movOpcode_registers r :
  r ∈ registers -> exists prefix, movOpcode r = Some prefix.
Proof.
  intros Hr. apply registers_cases in Hr as [-> | [-> | [-> | ->]]]; by eexists.
Qed.

(** C2: a [push] of a label leaves the push opcode and four zero bytes in
    the code, with a label patch on them; wherever the label is defined,
    before the push or after it, at code offset [K], resolution overwrites
    the four zero bytes with the little-endian [loadBase + K + headerSize],
    the length of the code taking no part. *)
Theorem push_label_resolved pre post s1 s2 i a rest c ps ls :
  Name i = "push" -> Operands i = a :: rest -> Typ a = IDENTIFIER ->
  pre ++ Instr i :: post = s1 ++ Label (Literal a) :: s2 ->
  Forall (fun stmt => ~ defines (Literal a) stmt) s2 ->
  statements (pre ++ Instr i :: post) New = (c, Val tt) ->
  iteration (patches c) ps -> iteration (labelTargets c) ls ->
  let at_push := length (code (statements pre New).1) in
  let K := len (code (statements s1 New).1) in
  code c !! at_push = Some 0x68
  /\ window (S at_push) (code c) = [0; 0; 0; 0]
  /\ labelTargets c !! S at_push = Some (Literal a)
  /\ exists c',
       resolve ps ls c = (c', Val tt)
       /\ window (S at_push) (code c')
          = PutUint32 (uint32 (loadBase + K + headerSize)).
Proof.
  intros Hname Hops Ha Hsplit Hlast Hrun Hps Hls.
  pose proof (statements_reachable _ _ Hrun) as Hwf.
  assert (labels c !! Literal a = Some (len (code (statements s1 New).1))) as HK.
  { rewrite Hsplit in Hrun.
    pose proof Hrun as Hrun'. apply statements_app in Hrun' as (cL & HL & _).
    rewrite HL. by apply (labels_defined _ s1 s2 New cL c). }
  apply statements_app in Hrun as (c1 & Hpre & Hrun). rewrite Hpre. cbn [fst].
  apply statements_cons in Hrun as (c2 & Hpush & Hpost).
  pose proof (statements_reachable _ _ Hpre) as Hwf1.
  pose proof (wf_shape _ _ Hwf1 (statement_shape _ _ _ Hpush)) as Hwf2.
  destruct (statements_wf _ _ _ Hwf2 Hpost) as [_ (_ & Htargets & bs & Hcode)].
  cbn [statement] in Hpush.
  rewrite compileInstruction_push, (assemblePush_identifier i a rest) in Hpush by done.
  simplify_eq. fields.
  assert (labelTargets c !! S (length (code c1)) = Some (Literal a)) as Htarget.
  { apply Htargets. fields. apply lookup_insert_eq. }
  split.
  { rewrite Hcode, <- app_assoc. by apply list_lookup_middle. }
  split; [by apply (wf_target c Hwf) in Htarget as (_ & _ & _ & ?) |].
  split; [done |].
  eexists. split; [by apply resolve_wf |]. fields.
  rewrite (resolved_target c ps ls Hwf Hps Hls _ _ Htarget). by rewrite HK.
Qed.

(** C1: a [mov] of a data block into one of the four registers ([rax] among
    them) records a data patch that stores the offset [D] at which the block
    was declared; resolution overwrites the four bytes of the immediate with
    the little-endian [loadBase + D + L + headerSize], [L] being the length
    of the final code buffer. *)
Theorem mov_data_resolved p1 p2 post contents i a b rest c ps ls :
  Name i = "mov" -> Operands i = a :: b :: rest ->
  Typ a = REGISTER -> Literal a ∈ registers -> Typ b = IDENTIFIER ->
  Forall (fun stmt => ~ declares (Literal b) stmt) p2 ->
  let pre := p1 ++ Data (Literal b) contents :: p2 in
  statements (pre ++ Instr i :: post) New = (c, Val tt) ->
  iteration (patches c) ps -> iteration (labelTargets c) ls ->
  let D := len (data (statements p1 New).1) in
  let o := (length (code (statements pre New).1) + 3)%nat in
  patches c !! o = Some D
  /\ exists c',
       resolve ps ls c = (c', Val tt)
       /\ window o (code c')
          = PutUint32 (uint32 (loadBase + D + len (code c') + headerSize)).
Proof.
  intros Hname Hops Ha Hreg Hb Hlast pre Hrun Hps Hls.
  pose proof (statements_reachable _ _ Hrun) as Hwf.
  apply statements_app in Hrun as (c1 & Hpre & Hrun). rewrite Hpre. cbn [fst].
  assert (dataOffsets c1 !! Literal b = Some (len (data (statements p1 New).1)))
    as HD.
  { pose proof Hpre as Hpre'. apply statements_app in Hpre' as (cD & HpD & _).
    rewrite HpD. by apply (dataOffsets_declared _ contents p1 p2 New cD c1). }
  set (D := len (data (statements p1 New).1)) in *.
  apply statements_cons in Hrun as (c2 & Hmov & Hpost).
  pose proof (statements_reachable _ _ Hpre) as Hwf1.
  pose proof (wf_shape _ _ Hwf1 (statement_shape _ _ _ Hmov)) as Hwf2.
  destruct (statements_wf _ _ _ Hwf2 Hpost) as [_ (Hpatches & _ & _)].
  destruct (movOpcode_registers _ Hreg) as [prefix Hop].
  cbn [statement] in Hmov.
  rewrite compileInstruction_mov, (assembleMov_identifier i a b rest D) in Hmov
    by done.
  rewrite (assembleMov_number _ a (decimalToken D) rest prefix) in Hmov by done.
  apply movNumber_decimal_inv in Hmov as [_ ->].
  assert (patches c !! (length (code c1) + 3)%nat = Some D) as Hpatch.
  { apply Hpatches. unfold emitMov. fields.
    rewrite length_app, (movOpcode_length _ _ Hop). apply lookup_insert_eq. }
  split; [done |].
  eexists. split; [by apply resolve_wf |]. fields.
  rewrite (resolved_patch c ps ls Hwf Hps Hls _ _ Hpatch).
  unfold len. by rewrite applyWrites_length.
Qed.

(** The two patch loops give the same state whatever the iteration orders. *)
Lemma resolve_order_irrelevant c ps ps' ls ls' :
  wf c ->
  iteration (patches c) ps -> iteration (patches c) ps' ->
  iteration (labelTargets c) ls -> iteration (labelTargets c) ls' ->
  resolve ps ls c = resolve ps' ls' c.
Proof.
  intros Hwf Hps Hps' Hls Hls'. rewrite !resolve_wf by done. do 2 f_equal.
  apply applyWrites_perm; [| by apply writesOf_separate].
  unfold writesOf, iteration in *. apply Permutation_app; apply Permutation_map.
  - by rewrite Hps, Hps'.
  - by rewrite Hls, Hls'.
Qed.

(** [Compile] has a run on every stream. *)
Lemma iteration_map_to_list `{Countable K} {V} (m : gmap K V) :
  iteration m (map_to_list m).
Proof. unfold iteration. reflexivity. Qed.

Lemma iteration_reverse `{Countable K} {V} (m : gmap K V) :
  iteration m (reverse (map_to_list m)).
Proof. unfold iteration. apply reverse_Permutation. Qed.

Lemma Compile_total W stream c : Compile W stream c (CompileRun W stream c).
Proof.
  destruct (statements stream c) as [c1 [[] | e |]] eqn:Hrun.
  - replace (CompileRun W stream c)
      with ((resolve (map_to_list (patches c1)) (map_to_list (labelTargets c1));;
             writeElf W) c1).
    + apply Compile_resolved; [done | apply iteration_map_to_list ..].
    + unfold CompileRun, mbind, M_bind, get. by rewrite Hrun.
  - replace (CompileRun W stream c) with (c1, @Err unit e).
    + by apply Compile_aborted.
    + unfold CompileRun, mbind, M_bind, get. by rewrite Hrun.
  - replace (CompileRun W stream c) with (c1, @Panic unit).
    + by apply Compile_aborted.
    + unfold CompileRun, mbind, M_bind, get. by rewrite Hrun.
Qed.

(** C8: compilation is deterministic: any two runs of [Compile] on the same
    stream end in the same state, with the same code and data buffers, and
    with the same outcome, whatever orders the two patch loops walk their
    maps in. *)
Theorem Compile_deterministic W stream r1 r2 :
  Compile W stream New r1 -> Compile W stream New r2 ->
  code r1.1 = code r2.1 /\ data r1.1 = data r2.1 /\ r1 = r2.
Proof.
  intros H1 H2. assert (r1 = r2) as ->; [| done].
  destruct H1 as [c1 r1 Hrun1 Hr1 | c1 ps ls Hrun1 Hps Hls];
    destruct H2 as [c2 r2 Hrun2 Hr2 | c2 ps' ls' Hrun2 Hps' Hls'];
    rewrite Hrun1 in Hrun2; simplify_eq; try done.
  unfold mbind, M_bind.
  by rewrite (resolve_order_irrelevant c2 ps ps' ls ls')
    by eauto using statements_reachable.
Qed.

(** ** The statements at work on [sample] *)

Lemma sample_drained : statements sample New = (sampleDrained, Val tt).
Proof. vm_compute. reflexivity. Qed.

Example sample_code_drained :
  code sampleDrained
  = [0x48; 0xc7; 0xc0; 3; 0; 0; 0;  0x68; 0; 0; 0; 0;  0x68; 0; 0; 0; 0;
     0x48; 0x01; 0xd8;  0xcd; 0x80;  0xc3].
Proof. vm_compute. reflexivity. Qed.

Example sample_code_compiled :
  code (CompileRun writeOk sample New).1
  = [0x48; 0xc7; 0xc0; 0xca; 0x00; 0x40; 0x00;  0x68; 0xc4; 0x00; 0x40; 0x00;
     0x68; 0xb0; 0x00; 0x40; 0x00;  0x48; 0x01; 0xd8;  0xcd; 0x80;  0xc3]
  /\ (CompileRun writeOk sample New).2 = Val tt.
Proof. vm_compute. split; reflexivity. Qed.

Lemma patch_offsets_in_bounds_witness :
  (3 + 4 <= length (code sampleDrained))%nat
  /\ forall ps ls,
       iteration (patches sampleDrained) ps ->
       iteration (labelTargets sampleDrained) ls ->
       exists c',
         resolve ps ls sampleDrained = (c', Val tt)
         /\ length (code c') = length (code sampleDrained).
Proof.
  apply (patch_offsets_in_bounds sample sampleDrained 3).
  - vm_compute. reflexivity.
  - left. exists 3. vm_compute. reflexivity.
Defined.

Lemma patch_placeholders_witness :
  (forall o s, labelTargets sampleDrained !! o = Some s ->
     window o (code sampleDrained) = [0; 0; 0; 0])
  /\ (forall o v, patches sampleDrained !! o = Some v ->
        window o (code sampleDrained) = PutUint32 (uint32 v)).
Proof.
  apply (patch_placeholders sample sampleDrained).
  vm_compute. reflexivity.
Defined.

Lemma missing_label_resolves_to_zero_witness :
  exists c',
    resolve (map_to_list (patches sampleDrained))
      (map_to_list (labelTargets sampleDrained)) sampleDrained = (c', Val tt)
    /\ window 13 (code c') = PutUint32 (uint32 (loadBase + 0 + headerSize)).
Proof.
  apply (missing_label_resolves_to_zero sample sampleDrained 13 "nowhere").
  - vm_compute. reflexivity.
  - vm_compute. reflexivity.
  - vm_compute. reflexivity.
  - unfold iteration. reflexivity.
  - unfold iteration. reflexivity.
Defined.

Lemma push_label_resolved_witness :
  let pre := twoBlocks ++ [instr "mov" [reg "rax"; ident "msg"]] in
  let s1 := pre ++ [instr "push" [ident "done"]; instr "push" [ident "nowhere"];
                    instr "add" [reg "rax"; reg "rbx"]] in
  let at_push := length (code (statements pre New).1) in
  let K := len (code (statements s1 New).1) in
  code sampleDrained !! at_push = Some 0x68
  /\ window (S at_push) (code sampleDrained) = [0; 0; 0; 0]
  /\ labelTargets sampleDrained !! S at_push = Some "done"
  /\ exists c',
       resolve (map_to_list (patches sampleDrained))
         (map_to_list (labelTargets sampleDrained)) sampleDrained = (c', Val tt)
       /\ window (S at_push) (code c')
          = PutUint32 (uint32 (loadBase + K + headerSize)).
Proof.
  apply (push_label_resolved
           (twoBlocks ++ [instr "mov" [reg "rax"; ident "msg"]])
           [instr "push" [ident "nowhere"]; instr "add" [reg "rax"; reg "rbx"];
            Label "done"; instr "int" [num "0x80"]; instr "ret" []]
           (twoBlocks ++ [instr "mov" [reg "rax"; ident "msg"];
                          instr "push" [ident "done"];
                          instr "push" [ident "nowhere"];
                          instr "add" [reg "rax"; reg "rbx"]])
           [instr "int" [num "0x80"]; instr "ret" []]
           {| Name := "push"; Operands := [ident "done"] |}
           (ident "done") [] sampleDrained).
  - reflexivity.
  - reflexivity.
  - reflexivity.
  - reflexivity.
  - repeat constructor; exact id.
  - vm_compute. reflexivity.
  - unfold iteration. reflexivity.
  - unfold iteration. reflexivity.
Defined.

Lemma mov_data_resolved_witness :
  let p1 := [Data "pad" [1; 2; 3]] in
  let D := len (data (statements p1 New).1) in
  let o := (length (code (statements twoBlocks New).1) + 3)%nat in
  patches sampleDrained !! o = Some D
  /\ exists c',
       resolve (map_to_list (patches sampleDrained))
         (map_to_list (labelTargets sampleDrained)) sampleDrained = (c', Val tt)
       /\ window o (code c')
          = PutUint32 (uint32 (loadBase + D + len (code c') + headerSize)).
Proof.
  apply (mov_data_resolved
           [Data "pad" [1; 2; 3]] []
           [instr "push" [ident "done"]; instr "push" [ident "nowhere"];
            instr "add" [reg "rax"; reg "rbx"]; Label "done";
            instr "int" [num "0x80"]; instr "ret" []]
           [4]
           {| Name := "mov"; Operands := [reg "rax"; ident "msg"] |}
           (reg "rax") (ident "msg") [] sampleDrained).
  - reflexivity.
  - reflexivity.
  - reflexivity.
  - apply (bool_decide_unpack _). vm_compute. exact I.
  - reflexivity.
  - constructor.
  - vm_compute. reflexivity.
  - unfold iteration. reflexivity.
  - unfold iteration. reflexivity.
Defined.

Lemma Compile_deterministic_witness :
  let r1 := CompileRun writeOk sample New in
  let r2 := (resolve (reverse (map_to_list (patches sampleDrained)))
               (reverse (map_to_list (labelTargets sampleDrained)));;
             writeElf writeOk) sampleDrained in
  code r1.1 = code r2.1 /\ data r1.1 = data r2.1 /\ r1 = r2.
Proof.
  apply (Compile_deterministic writeOk sample).
  - apply Compile_total.
  - apply Compile_resolved.
    + vm_compute. reflexivity.
    + apply iteration_reverse.
    + apply iteration_reverse.
Defined.

(** ** Bytes *)

Lemma isByte_byte x : isByte (byte x).
Proof. unfold isByte, byte. pose proof (Z.mod_pos_bound x (2 ^ 8)). lia. Qed.

Lemma PutUint32_bytes v : Forall isByte (PutUint32 v).
Proof. unfold PutUint32. repeat constructor; apply isByte_byte. Qed.

Lemma argToByteArray_bytes b : Forall isByte (argToByteArray b).1.
Proof.
  unfold argToByteArray.
  destruct (strconv.ParseInt (Literal b) 0 64) as [n [e |]]; cbn [fst].
  - repeat constructor; unfold isByte; lia.
  - apply PutUint32_bytes.
Qed.

Lemma table_bytes `{Countable K} (m : gmap K (list Z)) k bs :
  map_Forall (fun _ bs => Forall isByte bs) m -> m !! k = Some bs -> Forall isByte bs.
Proof. intros Hm Hk. by apply (Hm k). Qed.

Lemma bytes_decide (bs : list Z) :
  forallb (fun b => (0 <=? b) && (b <? 256)) bs = true -> Forall isByte bs.
Proof.
  rewrite forallb_forall, Forall_forall. intros Hall b Hb.
  apply list_elem_of_In, Hall, andb_true_iff in Hb as [H0 H1].
  apply Z.leb_le in H0. apply Z.ltb_lt in H1. by split.
Qed.

Lemma codesADD_bytes k bs : codesADD !! k = Some bs -> Forall isByte bs.
Proof.
  apply table_bytes. unfold codesADD, assign. cbn [foldl fst snd].
  repeat (apply map_Forall_insert_2; [by apply bytes_decide |]).
  apply map_Forall_empty.
Qed.

Lemma codesSUB_bytes k bs : codesSUB !! k = Some bs -> Forall isByte bs.
Proof.
  apply table_bytes. unfold codesSUB, assign. cbn [foldl fst snd].
  repeat (apply map_Forall_insert_2; [by apply bytes_decide |]).
  apply map_Forall_empty.
Qed.

Lemma tableDEC_bytes k bs : tableDEC !! k = Some bs -> Forall isByte bs.
Proof.
  apply table_bytes. unfold tableDEC, assign. cbn [foldl fst snd].
  repeat (apply map_Forall_insert_2; [by apply bytes_decide |]).
  apply map_Forall_empty.
Qed.

Lemma tableINC_bytes k bs : tableINC !! k = Some bs -> Forall isByte bs.
Proof.
  apply table_bytes. unfold tableINC, assign. cbn [foldl fst snd].
  repeat (apply map_Forall_insert_2; [by apply bytes_decide |]).
  apply map_Forall_empty.
Qed.

(** ** What an instruction does at most *)

Lemma emits_code c c' (bs : list Z) :
  code c' = code c ++ bs -> Forall isByte bs ->
  frame c c' -> patches c' = patches c ->
  emits c c'.
Proof. intros Hcode Hbs Hframe Hp. split; [by exists bs |]. split; [done | by left]. Qed.

Lemma emits_refl c : emits c c.
Proof. apply emits_code with []; [by rewrite app_nil_r | constructor | done | done]. Qed.

Lemma movOpcode_bytes r prefix : movOpcode r = Some prefix -> Forall isByte prefix.
Proof.
  unfold movOpcode. repeat case_decide; intros [= <-]; by apply bytes_decide.
Qed.

Ltac bytes :=
  repeat first
    [ apply Forall_nil_2 | apply Forall_app_2 | apply Forall_cons_2
    | apply isByte_byte | apply PutUint32_bytes | assumption
    | by (unfold isByte; lia)
    | by apply bytes_decide
    | by eapply codesADD_bytes | by eapply codesSUB_bytes
    | by eapply tableDEC_bytes | by eapply tableINC_bytes
    | by eapply movOpcode_bytes ].

Ltac emitted :=
  first
    [ apply emits_refl
    | apply emits_code with [];
      [ fields; by rewrite app_nil_r | constructor | repeat split; reflexivity
      | reflexivity ]
    | eapply emits_code;
      [ fields; rewrite <- ?app_assoc; reflexivity
      | bytes | repeat split; reflexivity | reflexivity ] ].

Ltac stopped := intros [= <- <-]; emitted.

Lemma assembleADD_emits i c c' r : assembleADD i c = (c', r) -> emits c c'.
Proof.
  unfold assembleADD. unfold_M.
  destruct (Operands i !! 0%nat) as [a |]; [| stopped].
  destruct (Operands i !! 1%nat) as [b |]; [| stopped].
  destruct (codesADD !! (Literal a, Literal b)) as [bs |] eqn:Hbs; [stopped |].
  case_decide; [| stopped].
  pose proof (argToByteArray_bytes b) as Hn.
  destruct (argToByteArray b) as [n [e |]]; cbn [fst] in Hn; [stopped |].
  repeat case_decide; stopped.
Qed.

Lemma assembleSUB_emits i c c' r : assembleSUB i c = (c', r) -> emits c c'.
Proof.
  unfold assembleSUB. unfold_M.
  destruct (Operands i !! 0%nat) as [a |]; [| stopped].
  destruct (Operands i !! 1%nat) as [b |]; [| stopped].
  destruct (codesSUB !! (Literal a, Literal b)) as [bs |] eqn:Hbs; [stopped |].
  case_decide; [| stopped].
  pose proof (argToByteArray_bytes b) as Hn.
  destruct (argToByteArray b) as [n [e |]]; cbn [fst] in Hn; [stopped |].
  repeat case_decide; stopped.
Qed.

Lemma assembleDEC_emits i c c' r : assembleDEC i c = (c', r) -> emits c c'.
Proof.
  unfold assembleDEC. unfold_M.
  destruct (Operands i !! 0%nat) as [a |]; [| stopped].
  destruct (tableDEC !! Literal a) as [bs |] eqn:Hbs; stopped.
Qed.

Lemma assembleINC_emits i c c' r : assembleINC i c = (c', r) -> emits c c'.
Proof.
  unfold assembleINC. unfold_M.
  destruct (Operands i !! 0%nat) as [a |]; [| stopped].
  destruct (tableINC !! Literal a) as [bs |] eqn:Hbs; stopped.
Qed.

Lemma assembleXOR_emits i c c' r : assembleXOR i c = (c', r) -> emits c c'.
Proof.
  unfold assembleXOR. unfold_M.
  destruct (Operands i !! 0%nat) as [a |]; [| stopped].
  repeat case_decide; stopped.
Qed.

Lemma assemblePush_emits i c c' r : assemblePush i c = (c', r) -> emits c c'.
Proof.
  unfold assemblePush. unfold_M.
  destruct (Operands i !! 0%nat) as [a |]; [| stopped].
  case_decide.
  - destruct (Operands i !! 1%nat) as [b |]; [| stopped].
    pose proof (argToByteArray_bytes b) as Hn.
    destruct (argToByteArray b) as [n [e |]]; cbn [fst] in Hn; stopped.
  - case_decide; stopped.
Qed.

Lemma argToByteArray_decimal val :
  - 2 ^ 63 <= val < 2 ^ 63 ->
  argToByteArray (decimalToken val) = (PutUint32 (uint32 val), None).
Proof.
  intros Hval. unfold argToByteArray, decimalToken. cbn [Literal].
  by rewrite ParseInt_Sprintf_d.
Qed.

Lemma argToByteArray_decimal_range val :
  ~ (- 2 ^ 63 <= val < 2 ^ 63) ->
  argToByteArray (decimalToken val)
  = ([0; 0; 0; 0],
     Some (ErrArgToByteArray (strconv.Sprintf_d val) strconv.ErrRange)).
Proof.
  intros Hval. unfold argToByteArray, decimalToken. cbn [Literal].
  rewrite ParseInt_Sprintf_d_gen by (left; done).
  destruct (Z.ltb_spec val (- 2 ^ 63)); [done |].
  destruct (Z.ltb_spec val (2 ^ 63)); [lia | done].
Qed.

Lemma movNumber_emits prefix b c c' r :
  Forall isByte prefix ->
  movNumber prefix b false c = (c', r) -> emits c c'.
Proof.
  intros Hprefix. rewrite movNumber_run.
  pose proof (argToByteArray_bytes b) as Hn.
  destruct (argToByteArray b) as [n [e |]]; cbn [fst] in Hn; cbv zeta; stopped.
Qed.

Lemma movNumber_decimal_emits prefix name val c c' r :
  Forall isByte prefix ->
  dataOffsets c !! name = Some val ->
  movNumber prefix (decimalToken val) true c = (c', r) -> emits c c'.
Proof.
  intros Hprefix Hval.
  destruct (decide (- 2 ^ 63 <= val < 2 ^ 63)) as [Hrange | Hrange].
  - rewrite movNumber_decimal by done. intros [= <- <-]. unfold emitMov.
    split; [| split].
    + exists (prefix ++ PutUint32 (uint32 val)). split; [bytes |].
      fields. by rewrite <- app_assoc.
    + done.
    + right. by exists (length (code c ++ prefix)), name, val.
  - rewrite movNumber_run, argToByteArray_decimal_range by done. stopped.
Qed.

Lemma assembleMov_emits i c c' r : assembleMov i false c = (c', r) -> emits c c'.
Proof.
  rewrite assembleMov_unfold, assembleMov_body_cases.
  destruct (Operands i) as [| a [| b rest]] eqn:Hops; [stopped | |].
  { case_decide; stopped. }
  case_decide as Ha; [| stopped].
  destruct (Typ b) eqn:Hb.
  - unfold Printf. stopped.
  - destruct (movOpcode (Literal a)) as [prefix |] eqn:Hop; [| stopped].
    apply movNumber_emits. by eapply movOpcode_bytes.
  - destruct (dataOffsets c !! Literal b) as [val |] eqn:Hval; [| stopped].
    cbn [list_insert insert].
    destruct (movOpcode (Literal a)) as [prefix |] eqn:Hop.
    + erewrite assembleMov_number; [| reflexivity | done | done | done].
      apply movNumber_decimal_emits with (Literal b); [| done].
      by eapply movOpcode_bytes.
    + erewrite assembleMov_number_unknown; [| reflexivity | done | done | done].
      stopped.
  - stopped.
Qed.

Lemma compileInstruction_emits i c c' r :
  compileInstruction i c = (c', r) -> emits c c'.
Proof.
  unfold compileInstruction.
  repeat case_decide;
    eauto using assembleADD_emits, assembleSUB_emits, assembleDEC_emits,
      assembleINC_emits, assembleXOR_emits, assemblePush_emits, assembleMov_emits.
  - unfold_M. destruct (Operands i !! 0%nat) as [a |]; [| stopped].
    unfold argToByte. destruct (strconv.ParseInt (Literal a) 0 64) as [n [e |]]; stopped.
  - unfold_M. stopped.
  - unfold_M. stopped.
  - unfold_M. stopped.
Qed.

(** ** The statement loop, whatever its outcome *)

Lemma statements_cons_any stmt rest c c' r :
  statements (stmt :: rest) c = (c', r) ->
  (statement stmt c = (c', r) /\ r <> Val tt)
  \/ exists c1, statement stmt c = (c1, Val tt) /\ statements rest c1 = (c', r).
Proof.
  cbn [statements]. unfold mbind, M_bind.
  destruct (statement stmt c) as [c1 [[] | e |]]; intros Hrun.
  - right. by exists c1.
  - left. by simplify_eq.
  - left. by simplify_eq.
Qed.

(** The statements before the first one that does not succeed are run, that
    one is, the rest is not. *)
Lemma statements_stop pre : forall stmt post c c1 c2 r,
  statements pre c = (c1, Val tt) ->
  statement stmt c1 = (c2, r) -> r <> Val tt ->
  statements (pre ++ stmt :: post) c = (c2, r).
Proof.
  induction pre as [| s pre IH]; intros stmt post c c1 c2 r Hpre Hstmt Hr.
  - cbn [statements] in Hpre. unfold_M. simplify_eq.
    cbn [app statements]. unfold mbind, M_bind. rewrite Hstmt.
    by destruct r as [[] | e |].
  - apply statements_cons in Hpre as (c0 & Hs & Hpre).
    rewrite <- app_comm_cons. cbn [statements]. unfold mbind, M_bind.
    rewrite Hs. by eapply IH.
Qed.

Lemma statement_effect stmt c c' r :
  statement stmt c = (c', r) ->
  match stmt with
  | Data name cs =>
    c' = setDataOffsets (<[name := len (data c)]> (dataOffsets c))
           (setData (data c ++ cs) c)
    /\ r = Val tt
  | Label name => c' = setLabels (<[name := len (code c)]> (labels c)) c /\ r = Val tt
  | Instr i => emits c c'
  | Error v => c' = c /\ r = Err (ErrParser v)
  | Unhandled => c' = c /\ r = Err ErrUnhandledNode
  end.
Proof.
  destruct stmt as [name cs | v | name | i |]; cbn [statement].
  - unfold handleData. by intros [= <- <-].
  - unfold fail. by intros [= <- <-].
  - unfold recordLabel. by intros [= <- <-].
  - apply compileInstruction_emits.
  - unfold fail. by intros [= <- <-].
Qed.

Lemma len_app {A} (l k : list A) : len (l ++ k) = len l + len k.
Proof. unfold len. rewrite length_app. lia. Qed.

Lemma len_nonneg {A} (l : list A) : 0 <= len l.
Proof. unfold len. lia. Qed.

Lemma statement_symbolsInRange stmt c c' r :
  statement stmt c = (c', r) -> symbolsInRange c -> symbolsInRange c'.
Proof.
  intros Hstmt (HD & HK & Hv). apply statement_effect in Hstmt.
  destruct stmt as [name cs | v | name | i |].
  - destruct Hstmt as [-> _]. unfold symbolsInRange. fields.
    pose proof (len_nonneg cs). pose proof (len_nonneg (data c)).
    rewrite len_app. split; [| split].
    + intros n D HnD. apply lookup_insert_Some in HnD as [[_ <-] | [_ HnD]]; [lia |].
      apply HD in HnD. lia.
    + apply HK.
    + intros o v Hov. apply Hv in Hov. lia.
  - by destruct Hstmt as [-> _].
  - destruct Hstmt as [-> _]. unfold symbolsInRange. fields.
    pose proof (len_nonneg (code c)). split; [apply HD | split; [| apply Hv]].
    intros n K HnK. apply lookup_insert_Some in HnK as [[_ <-] | [_ HnK]]; [lia |].
    by apply (HK n).
  - destruct Hstmt as ((bs & _ & Hcode) & (Hdata & Hoffs & Hlabels & _) & Hp).
    unfold symbolsInRange. rewrite Hcode, Hdata, Hoffs, Hlabels, len_app.
    pose proof (len_nonneg bs). split; [apply HD | split].
    + intros n K HnK. apply HK in HnK. lia.
    + destruct Hp as [-> | (o & name & D & HnD & ->)]; [apply Hv |].
      intros o' v Hov. apply lookup_insert_Some in Hov as [[_ <-] | [_ Hov]].
      * by apply HD in HnD.
      * by apply Hv in Hov.
  - by destruct Hstmt as [-> _].
Qed.

Lemma statement_code_bytes stmt c c' r :
  statement stmt c = (c', r) -> Forall isByte (code c) -> Forall isByte (code c').
Proof.
  intros Hstmt Hc. apply statement_effect in Hstmt.
  destruct stmt as [name cs | v | name | i |].
  - by destruct Hstmt as [-> _].
  - by destruct Hstmt as [-> _].
  - by destruct Hstmt as [-> _].
  - destruct Hstmt as ((bs & Hbs & ->) & _). by apply Forall_app_2.
  - by destruct Hstmt as [-> _].
Qed.

Lemma statement_output stmt c c' r :
  statement stmt c = (c', r) -> output c' = output c.
Proof.
  intros Hstmt. apply statement_effect in Hstmt.
  destruct stmt as [name cs | v | name | i |].
  - by destruct Hstmt as [-> _].
  - by destruct Hstmt as [-> _].
  - by destruct Hstmt as [-> _].
  - by destruct Hstmt as (_ & (_ & _ & _ & ?) & _).
  - by destruct Hstmt as [-> _].
Qed.

(** A property every statement keeps, whatever its outcome, holds of the
    state the loop ends in, whatever its outcome. *)
Lemma statements_keep (P : Compiler -> Prop) :
  (forall stmt c c' r, statement stmt c = (c', r) -> P c -> P c') ->
  forall stream c c' r, statements stream c = (c', r) -> P c -> P c'.
Proof.
  intros Hkeep. induction stream as [| stmt stream IH]; intros c c' r Hrun Hc.
  { cbn [statements] in Hrun. unfold_M. by simplify_eq. }
  apply statements_cons_any in Hrun as [[Hstmt _] | (c1 & Hstmt & Hrun)].
  - by eapply Hkeep.
  - eapply IH; [done |]. by eapply Hkeep.
Qed.

Lemma statements_data stream : forall c c',
  statements stream c = (c', Val tt) -> data c' = data c ++ dataContents stream.
Proof.
  induction stream as [| stmt stream IH]; intros c c' Hrun.
  { cbn [statements] in Hrun. unfold_M. simplify_eq. by rewrite app_nil_r. }
  apply statements_cons in Hrun as (c1 & Hstmt & Hrun).
  rewrite (IH _ _ Hrun). apply statement_effect in Hstmt.
  destruct stmt as [name cs | v | name | i |]; cbn [dataContents flat_map].
  - destruct Hstmt as [-> _]. fields. by rewrite <- app_assoc.
  - by destruct Hstmt as [_ ?].
  - by destruct Hstmt as [-> _].
  - by destruct Hstmt as (_ & (-> & _) & _).
  - by destruct Hstmt as [_ ?].
Qed.

Lemma statements_keep_in (P : Compiler -> Prop) (Q : Node -> Prop) :
  (forall stmt c c' r, Q stmt -> statement stmt c = (c', r) -> P c -> P c') ->
  forall stream c c' r,
    Forall Q stream -> statements stream c = (c', r) -> P c -> P c'.
Proof.
  intros Hkeep. induction stream as [| stmt stream IH]; intros c c' r HQ Hrun Hc.
  { cbn [statements] in Hrun. unfold_M. by simplify_eq. }
  apply Forall_cons in HQ as [Hstmt HQ].
  apply statements_cons_any in Hrun as [[Hrun _] | (c1 & Hrun1 & Hrun)].
  - by eapply Hkeep.
  - eapply IH; [done | done |]. by eapply Hkeep.
Qed.

Lemma symbolsInRange_New : symbolsInRange New.
Proof. split; [| split]; intros ? ? H; cbn in H; by rewrite lookup_empty in H. Qed.

(** The names a table holds are those the stream gave it. *)
Lemma statements_tables name stream : forall c c',
  statements stream c = (c', Val tt) ->
  (is_Some (labels c' !! name)
   <-> is_Some (labels c !! name) \/ Exists (defines name) stream)
  /\ (is_Some (dataOffsets c' !! name)
      <-> is_Some (dataOffsets c !! name) \/ Exists (declares name) stream).
Proof.
  induction stream as [| stmt stream IH]; intros c c' Hrun.
  { cbn [statements] in Hrun. unfold_M. simplify_eq.
    rewrite !Exists_nil. tauto. }
  apply statements_cons in Hrun as (c1 & Hstmt & Hrun).
  destruct (IH _ _ Hrun) as [HL HD]. rewrite HL, HD, !Exists_cons. clear HL HD IH Hrun.
  apply statement_effect in Hstmt.
  destruct stmt as [n cs | v | n | i |]; cbn [defines declares].
  - destruct Hstmt as [-> _]. fields. rewrite lookup_insert_is_Some. split; [tauto |].
    destruct (decide (n = name)); tauto.
  - by destruct Hstmt as [_ ?].
  - destruct Hstmt as [-> _]. fields. rewrite lookup_insert_is_Some. split; [| tauto].
    destruct (decide (n = name)); tauto.
  - destruct Hstmt as (_ & (_ & -> & -> & _) & _). tauto.
  - by destruct Hstmt as [_ ?].
Qed.

Lemma writeBytes_bytes o buf : forall i bs,
  Forall isByte buf -> Forall isByte bs -> Forall isByte (writeBytes o i buf bs).
Proof.
  induction buf as [| x buf IH]; intros i bs Hbuf Hbs; [done |].
  apply Forall_cons in Hbuf as [Hx Hbuf]. cbn [writeBytes].
  apply IH; [done |]. by apply Forall_insert.
Qed.

Lemma applyWrites_bytes ws : forall bs,
  Forall isByte bs -> Forall isByte (foldl applyWrite bs ws).
Proof.
  induction ws as [| w ws IH]; intros bs Hbs; [done |]. cbn [foldl].
  apply IH. unfold applyWrite. apply writeBytes_bytes; [apply PutUint32_bytes | done].
Qed.

Lemma wf_SetOutput path c : wf c -> wf (SetOutput path c).
Proof. intros [Hp Ht Ha Hk]. by constructor. Qed.

Lemma surjective_run {A} (m : M A) c : m c = ((m c).1, (m c).2).
Proof. by destruct (m c). Qed.

(** ** Further statements: the statement loop and [Compile] *)

(** X1: whatever the instruction and whatever its outcome (success, error or
    panic), [compileInstruction] only appends bytes, values of 0..255, to the
    code; the data buffer, the data and label tables and the output path are
    as they were. *)
Theorem instruction_appends_bytes i c c' r :
  compileInstruction i c = (c', r) ->
  (exists bs : list Z, Forall isByte bs /\ code c' = code c ++ bs)
  /\ data c' = data c /\ dataOffsets c' = dataOffsets c
  /\ labels c' = labels c /\ output c' = output c.
Proof.
  intros Hrun. by apply compileInstruction_emits in Hrun as (Hcode & Hframe & _).
Qed.

Lemma instruction_appends_bytes_witness :
  let i := {| Name := "mov"; Operands := [reg "rbx"; num "12"] |} in
  let c' := (compileInstruction i sampleDrained).1 in
  (exists bs : list Z, Forall isByte bs /\ code c' = code sampleDrained ++ bs)
  /\ data c' = data sampleDrained /\ dataOffsets c' = dataOffsets sampleDrained
  /\ labels c' = labels sampleDrained /\ output c' = output sampleDrained.
Proof.
  apply (instruction_appends_bytes
           {| Name := "mov"; Operands := [reg "rbx"; num "12"] |} sampleDrained _
           (Val tt)).
  vm_compute. reflexivity.
Defined.

(** X2: in every state the statement loop can end in from [New], on success,
    on an error or on a panic, every data offset and every data patch is a
    position of the data buffer, every label is a position of the code
    buffer, and the code buffer holds bytes. *)
Theorem reachable_symbols_in_range stream c r :
  statements stream New = (c, r) ->
  symbolsInRange c /\ Forall isByte (code c).
Proof.
  intros Hrun. split.
  - eapply (statements_keep symbolsInRange); [| done | apply symbolsInRange_New].
    intros stmt c0 c1 r0. apply statement_symbolsInRange.
  - eapply (statements_keep (fun c => Forall isByte (code c))); [| done | by constructor].
    intros stmt c0 c1 r0. apply statement_code_bytes.
Qed.

Lemma reachable_symbols_in_range_witness :
  symbolsInRange sampleDrained /\ Forall isByte (code sampleDrained).
Proof.
  apply (reachable_symbols_in_range sample sampleDrained (Val tt)).
  vm_compute. reflexivity.
Defined.

(** X3: when the loop succeeds from [New], the data buffer is the
    concatenation of the contents of the data statements in source order, and
    a data name stands for the offset at which the contents of its last
    declaration lie in that buffer. *)
Theorem data_section_layout p1 name contents p2 c :
  Forall (fun stmt => ~ declares name stmt) p2 ->
  statements (p1 ++ Data name contents :: p2) New = (c, Val tt) ->
  data c = dataContents (p1 ++ Data name contents :: p2)
  /\ exists D : nat,
       dataOffsets c !! name = Some (Z.of_nat D)
       /\ take (length contents) (drop D (data c)) = contents.
Proof.
  intros Hlast Hrun.
  pose proof (statements_data _ _ _ Hrun) as Hdata. cbn [New data app] in Hdata.
  split; [done |].
  pose proof Hrun as Hrun'. apply statements_app in Hrun' as (cD & HpD & _).
  exists (length (dataContents p1)). split.
  - rewrite (dataOffsets_declared name contents p1 p2 New cD c HpD Hlast Hrun).
    by rewrite (statements_data _ _ _ HpD).
  - rewrite Hdata. unfold dataContents. rewrite flat_map_app. cbn [flat_map].
    rewrite drop_app_length. by rewrite take_app_length.
Qed.

Lemma data_section_layout_witness :
  data sampleDrained = dataContents sample
  /\ exists D : nat,
       dataOffsets sampleDrained !! "msg" = Some (Z.of_nat D)
       /\ take (length [4]) (drop D (data sampleDrained)) = [4].
Proof.
  apply (data_section_layout [Data "pad" [1; 2; 3]] "msg" [4]
           [ instr "mov" [reg "rax"; ident "msg"];
             instr "push" [ident "done"];
             instr "push" [ident "nowhere"];
             instr "add" [reg "rax"; reg "rbx"];
             Label "done";
             instr "int" [num "0x80"];
             instr "ret" [] ] sampleDrained).
  - repeat constructor; exact id.
  - vm_compute. reflexivity.
Defined.

(** X4: when the loop succeeds from [New], the label table holds exactly the
    names the stream defines with a label statement and the data table
    exactly the names it declares with a data statement; instructions add no
    name to either. *)
Theorem symbol_tables_domain stream c name :
  statements stream New = (c, Val tt) ->
  (is_Some (labels c !! name) <-> Exists (defines name) stream)
  /\ (is_Some (dataOffsets c !! name) <-> Exists (declares name) stream).
Proof.
  intros Hrun. destruct (statements_tables name _ _ _ Hrun) as [HL HD].
  rewrite HL, HD. cbn [New labels dataOffsets]. rewrite !lookup_empty.
  split; (split; [intros [[? [=]] | ?]; done | by right]).
Qed.

Lemma symbol_tables_domain_witness :
  (is_Some (labels sampleDrained !! "done") <-> Exists (defines "done") sample)
  /\ (is_Some (dataOffsets sampleDrained !! "done") <-> Exists (declares "done") sample).
Proof.
  apply (symbol_tables_domain sample sampleDrained "done").
  vm_compute. reflexivity.
Defined.

(** X5: the first statement that does not succeed ends the compilation:
    [Compile] returns its error (or its panic) with the state as that
    statement left it; the statements after it are not run, no patch is
    resolved and the writer is not called. *)
Theorem first_failure_aborts W pre stmt post c1 c2 r res :
  statements pre New = (c1, Val tt) ->
  statement stmt c1 = (c2, r) -> r <> Val tt ->
  Compile W (pre ++ stmt :: post) New res ->
  res = (c2, r).
Proof.
  intros Hpre Hstmt Hr Hrun.
  pose proof (statements_stop pre stmt post New c1 c2 r Hpre Hstmt Hr) as Hstop.
  destruct Hrun as [c' r' Hrun _ | c' ps ls Hrun _ _]; rewrite Hstop in Hrun.
  - done.
  - by simplify_eq.
Qed.

Lemma first_failure_aborts_witness :
  CompileRun writeOk
    (twoBlocks ++ instr "mov" [reg "rax"; ident "nowhere"] :: [instr "ret" []]) New
  = ((statements twoBlocks New).1,
     Err (ErrMovUnknownData (ident "nowhere"))).
Proof.
  apply (first_failure_aborts writeOk twoBlocks
           (instr "mov" [reg "rax"; ident "nowhere"]) [instr "ret" []]
           (statements twoBlocks New).1).
  - vm_compute. reflexivity.
  - vm_compute. reflexivity.
  - discriminate.
  - apply Compile_total.
Defined.

(** X6: on a state the loop ends in, the two patch loops succeed whatever
    the iteration orders, and all they change is the code inside the 4-byte
    windows of the patches: every other field of the state, the length of
    the code and every byte outside the windows are as before, and the code
    still holds bytes. *)
Theorem resolution_touches_patches_only stream c ps ls :
  statements stream New = (c, Val tt) ->
  iteration (patches c) ps -> iteration (labelTargets c) ls ->
  exists c',
    resolve ps ls c = (c', Val tt)
    /\ c' = setCode (code c') c
    /\ length (code c') = length (code c)
    /\ Forall isByte (code c')
    /\ forall j, (forall o, isPatch c o -> (j < o \/ o + 4 <= j)%nat) ->
         code c' !! j = code c !! j.
Proof.
  intros Hrun Hps Hls. pose proof (statements_reachable _ _ Hrun) as Hwf.
  eexists. split; [by apply resolve_wf |]. fields.
  split; [done |]. split; [apply applyWrites_length |]. split.
  - apply applyWrites_bytes.
    eapply (statements_keep (fun c => Forall isByte (code c))); [| done | by constructor].
    intros stmt c0 c1 r0. apply statement_code_bytes.
  - intros j Hj. by apply resolved_other.
Qed.

Lemma resolution_touches_patches_only_witness :
  exists c',
    resolve (map_to_list (patches sampleDrained))
      (map_to_list (labelTargets sampleDrained)) sampleDrained = (c', Val tt)
    /\ c' = setCode (code c') sampleDrained
    /\ length (code c') = length (code sampleDrained)
    /\ Forall isByte (code c')
    /\ forall j, (forall o, isPatch sampleDrained o -> (j < o \/ o + 4 <= j)%nat) ->
         code c' !! j = code sampleDrained !! j.
Proof.
  apply (resolution_touches_patches_only sample sampleDrained).
  - vm_compute. reflexivity.
  - unfold iteration. reflexivity.
  - unfold iteration. reflexivity.
Defined.

(** X7: when the loop succeeds, the rest of [Compile] cannot fail but in the
    writer: the writer is called once, with the path given to [SetOutput]
    (["a.out"] for [New] as it is), the resolved code and the data of the
    data statements, and [Compile] returns what the writer returns. *)
Theorem Compile_outcome W path stream c1 res :
  statements stream (SetOutput path New) = (c1, Val tt) ->
  Compile W stream (SetOutput path New) res ->
  SetOutput "a.out" New = New
  /\ output res.1 = path
  /\ data res.1 = dataContents stream
  /\ length (code res.1) = length (code c1)
  /\ res.2 = match W path (code res.1) (dataContents stream) with
             | Some msg => Err (ErrWriteElf msg)
             | None => Val tt
             end.
Proof.
  intros Hrun HC. split; [done |].
  assert (output c1 = path) as Hout.
  { eapply (statements_keep (fun c => output c = path)); [| done | done].
    intros stmt c c' r Hstmt <-. by eapply statement_output. }
  pose proof (statements_data _ _ _ Hrun) as Hdata. cbn [SetOutput New data app] in Hdata.
  destruct (statements_wf _ _ _ (wf_SetOutput path New wf_New) Hrun) as [Hwf _].
  destruct HC as [c' r' Hrun' Hr | c' ps ls Hrun' Hps Hls]; rewrite Hrun in Hrun'.
  { by simplify_eq. }
  simplify_eq. unfold mbind, M_bind. rewrite resolve_wf by done.
  unfold writeElf. fields. rewrite <- Hdata.
  set (bs := foldl applyWrite (code c') (writesOf c' ps ls)).
  assert (length bs = length (code c')) as Hlen by apply applyWrites_length.
  destruct (W (output c') bs (data c')) as [msg |] eqn:HW; cbn [fst snd]; fields;
    by rewrite HW.
Qed.

Lemma Compile_outcome_witness :
  let res := CompileRun writeOk sample (SetOutput "prog" New) in
  SetOutput "a.out" New = New
  /\ output res.1 = "prog"
  /\ data res.1 = dataContents sample
  /\ length (code res.1) = length (code (statements sample (SetOutput "prog" New)).1)
  /\ res.2 = match writeOk "prog" (code res.1) (dataContents sample) with
             | Some msg => Err (ErrWriteElf msg)
             | None => Val tt
             end.
Proof.
  apply (Compile_outcome writeOk "prog" sample).
  - vm_compute. reflexivity.
  - apply Compile_total.
Defined.

(** ** Refused instructions *)

Lemma argToByteArray_error b n e :
  argToByteArray b = (n, Some e) -> exists ne, e = ErrArgToByteArray (Literal b) ne.
Proof.
  unfold argToByteArray.
  destruct (strconv.ParseInt (Literal b) 0 64) as [v [ne |]]; [| done].
  intros [= <- <-]. by eexists.
Qed.

Lemma argToByte_error a n e :
  argToByte a = (n, Some e) -> exists ne, e = ErrArgToByte (Literal a) ne.
Proof.
  unfold argToByte.
  destruct (strconv.ParseInt (Literal a) 0 64) as [v [ne |]]; [| done].
  intros [= <- <-]. by eexists.
Qed.

Ltac refused := intros [= <- <-]; right; split; [reflexivity | exact I].
Ltac panicked := intros [= <- <-]; right; split; [reflexivity | cbn; lia].

Lemma assembleADD_refused i c c' r :
  assembleADD i c = (c', r) -> r = Val tt \/ (c' = c /\ refusal i r).
Proof.
  unfold assembleADD, refusal. unfold_M.
  destruct (Operands i) as [| a [| b rest]]; cbn [lookup list_lookup length].
  { panicked. }
  { panicked. }
  destruct (codesADD !! (Literal a, Literal b)) as [bytes |].
  { intros [= <- <-]. by left. }
  case_decide; [| refused].
  destruct (argToByteArray b) as [n [e |]] eqn:Hn.
  { apply argToByteArray_error in Hn as [ne ->]. refused. }
  repeat case_decide; first [refused | intros [= <- <-]; by left].
Qed.

Lemma assembleSUB_refused i c c' r :
  assembleSUB i c = (c', r) -> r = Val tt \/ (c' = c /\ refusal i r).
Proof.
  unfold assembleSUB, refusal. unfold_M.
  destruct (Operands i) as [| a [| b rest]]; cbn [lookup list_lookup length].
  { panicked. }
  { panicked. }
  destruct (codesSUB !! (Literal a, Literal b)) as [bytes |].
  { intros [= <- <-]. by left. }
  case_decide; [| refused].
  destruct (argToByteArray b) as [n [e |]] eqn:Hn.
  { apply argToByteArray_error in Hn as [ne ->]. refused. }
  repeat case_decide; first [refused | intros [= <- <-]; by left].
Qed.

Lemma assembleDEC_refused i c c' r :
  assembleDEC i c = (c', r) -> r = Val tt \/ (c' = c /\ refusal i r).
Proof.
  unfold assembleDEC, refusal. unfold_M.
  destruct (Operands i) as [| a rest]; cbn [lookup list_lookup length].
  { panicked. }
  destruct (tableDEC !! Literal a) as [bytes |]; [| refused].
  intros [= <- <-]. by left.
Qed.

Lemma assembleINC_refused i c c' r :
  assembleINC i c = (c', r) -> r = Val tt \/ (c' = c /\ refusal i r).
Proof.
  unfold assembleINC, refusal. unfold_M.
  destruct (Operands i) as [| a rest]; cbn [lookup list_lookup length].
  { panicked. }
  destruct (tableINC !! Literal a) as [bytes |]; [| refused].
  intros [= <- <-]. by left.
Qed.

Lemma assembleXOR_refused i c c' r :
  assembleXOR i c = (c', r) -> r = Val tt \/ (c' = c /\ refusal i r).
Proof.
  unfold assembleXOR, refusal. unfold_M.
  destruct (Operands i) as [| a rest]; cbn [lookup list_lookup length].
  { panicked. }
  repeat case_decide; first [refused | intros [= <- <-]; by left].
Qed.

Lemma assemblePush_refused i c c' r :
  assemblePush i c = (c', r) -> r = Val tt \/ (c' = c /\ refusal i r).
Proof.
  unfold assemblePush, refusal. unfold_M.
  destruct (Operands i) as [| a [| b rest]]; cbn [lookup list_lookup length].
  { panicked. }
  { case_decide; [panicked |].
    case_decide; first [refused | intros [= <- <-]; by left]. }
  case_decide.
  { destruct (argToByteArray b) as [n [e |]] eqn:Hn.
    - apply argToByteArray_error in Hn as [ne ->]. refused.
    - intros [= <- <-]. by left. }
  case_decide; first [refused | intros [= <- <-]; by left].
Qed.

Lemma int_refused i c c' r :
  (a ← operand i 0; n ← try (argToByte a); appendCode [0xcd];; appendCode [n]) c
  = (c', r) ->
  r = Val tt \/ (c' = c /\ refusal i r).
Proof.
  unfold refusal. unfold_M.
  destruct (Operands i) as [| a rest]; cbn [lookup list_lookup length].
  { panicked. }
  destruct (argToByte a) as [n [e |]] eqn:Hn.
  - apply argToByte_error in Hn as [ne ->]. refused.
  - intros [= <- <-]. by left.
Qed.

(** A refused [mov] leaves the state as it was, or, when it is the number
    that is refused, with the opcode of the register appended to the code. *)
Lemma assembleMov_refused i c c' r :
  assembleMov i false c = (c', r) ->
  r = Val tt
  \/ (refusal i r
      /\ (c' = c
          \/ exists a prefix lit ne,
               Operands i !! 0%nat = Some a /\ Typ a = REGISTER
               /\ movOpcode (Literal a) = Some prefix
               /\ r = Err (ErrArgToByteArray lit ne)
               /\ c' = setCode (code c ++ prefix) c)).
Proof.
  rewrite assembleMov_unfold, assembleMov_body_cases. unfold refusal.
  destruct (Operands i) as [| a [| b rest]] eqn:Hops; cbn [length lookup list_lookup].
  { intros [= <- <-]. right. split; [lia | by left]. }
  { case_decide; intros [= <- <-]; right; (split; [done || lia | by left]). }
  case_decide as Ha; [| intros [= <- <-]; right; split; [done | by left]].
  destruct (Typ b) eqn:Hb.
  - unfold Printf. intros [= <- <-]. by left.
  - destruct (movOpcode (Literal a)) as [prefix |] eqn:Hop;
      [| intros [= <- <-]; right; split; [done | by left]].
    rewrite movNumber_run. destruct (argToByteArray b) as [n [e |]] eqn:Hn.
    + apply argToByteArray_error in Hn as [ne ->]. intros [= <- <-]. right.
      split; [done |]. right. by exists a, prefix, (Literal b), ne.
    + intros [= <- <-]. by left.
  - destruct (dataOffsets c !! Literal b) as [val |] eqn:Hval;
      [| intros [= <- <-]; right; split; [done | by left]].
    cbn [list_insert insert].
    destruct (movOpcode (Literal a)) as [prefix |] eqn:Hop.
    + erewrite assembleMov_number; [| reflexivity | done | done | done].
      rewrite movNumber_run.
      destruct (argToByteArray (decimalToken val)) as [n [e |]] eqn:Hn.
      * apply argToByteArray_error in Hn as [ne ->]. intros [= <- <-]. right.
        split; [done |]. right. by exists a, prefix, (Literal (decimalToken val)), ne.
      * intros [= <- <-]. by left.
    + erewrite assembleMov_number_unknown; [| reflexivity | done | done | done].
      intros [= <- <-]. right. split; [done | by left].
  - intros [= <- <-]. right. split; [done | by left].
Qed.

Lemma mnemonics_cases name :
  name ∈ mnemonics
  <-> name = "add" \/ name = "dec" \/ name = "inc" \/ name = "int" \/ name = "mov"
      \/ name = "nop" \/ name = "push" \/ name = "ret" \/ name = "sub"
      \/ name = "xor".
Proof. unfold mnemonics. rewrite !elem_of_cons, elem_of_nil. tauto. Qed.

Ltac known H :=
  let Hr := fresh in
  intros Hr; apply H in Hr as [-> | [-> Hr]]; [by left |];
  right; left; split; [tauto |]; split; [done | by left].

(** The outcomes of [compileInstruction]: success; a refusal of a known
    mnemonic, with the state as it was but for a [mov] whose number is
    refused; the error of an unknown mnemonic, with the state as it was. *)
Lemma compileInstruction_refused i c c' r :
  compileInstruction i c = (c', r) ->
  r = Val tt
  \/ (Name i ∈ mnemonics /\ refusal i r
      /\ (c' = c
          \/ (Name i = "mov"
              /\ exists a prefix lit ne,
                   Operands i !! 0%nat = Some a /\ Typ a = REGISTER
                   /\ movOpcode (Literal a) = Some prefix
                   /\ r = Err (ErrArgToByteArray lit ne)
                   /\ c' = setCode (code c ++ prefix) c)))
  \/ ((Name i ∉ mnemonics) /\ c' = c /\ r = Err (ErrUnknownInstruction i)).
Proof.
  unfold compileInstruction. rewrite mnemonics_cases.
  case_decide; [known assembleADD_refused |].
  case_decide; [known assembleDEC_refused |].
  case_decide; [known assembleINC_refused |].
  case_decide; [known int_refused |].
  case_decide as Hmov.
  { intros Hr. apply assembleMov_refused in Hr as [-> | [Hr Hc]]; [by left |].
    right. left. split; [tauto |]. split; [done |].
    destruct Hc as [-> | Hc]; [by left | by right]. }
  case_decide; [intros [= <- <-]; by left |].
  case_decide; [known assemblePush_refused |].
  case_decide; [intros [= <- <-]; by left |].
  case_decide; [known assembleSUB_refused |].
  case_decide; [known assembleXOR_refused |].
  intros [= <- <-]. right. right. split; [tauto | done].
Qed.

(** X8: an instruction that is refused, with an error or a panic, leaves the
    compiler state exactly as it was, with one exception: a [mov] into one of
    the four registers whose number does not parse has already appended the
    three opcode bytes of the register to the code when the error is
    returned. *)
Theorem refused_instruction_state i c c' r :
  compileInstruction i c = (c', r) -> r <> Val tt ->
  c' = c
  \/ (Name i = "mov"
      /\ exists a prefix lit ne,
           Operands i !! 0%nat = Some a /\ Typ a = REGISTER
           /\ movOpcode (Literal a) = Some prefix
           /\ r = Err (ErrArgToByteArray lit ne)
           /\ c' = setCode (code c ++ prefix) c).
Proof.
  intros Hrun Hr.
  apply compileInstruction_refused in Hrun as [-> | [(_ & _ & Hc) | (_ & -> & _)]];
    [done | done | by left].
Qed.

Lemma refused_instruction_state_witness :
  let i := {| Name := "mov"; Operands := [reg "rax"; num "99999999999999999999"] |} in
  let c' := setCode [0x48; 0xc7; 0xc0] New in
  c' = New
  \/ (Name i = "mov"
      /\ exists a prefix lit ne,
           Operands i !! 0%nat = Some a /\ Typ a = REGISTER
           /\ movOpcode (Literal a) = Some prefix
           /\ @Err unit (ErrArgToByteArray "99999999999999999999" strconv.ErrRange)
              = Err (ErrArgToByteArray lit ne)
           /\ c' = setCode (code New ++ prefix) New).
Proof.
  apply (refused_instruction_state
           {| Name := "mov"; Operands := [reg "rax"; num "99999999999999999999"] |}
           New (setCode [0x48; 0xc7; 0xc0] New)
           (Err (ErrArgToByteArray "99999999999999999999" strconv.ErrRange))).
  - vm_compute. reflexivity.
  - discriminate.
Defined.

(** X9: [compileInstruction] panics only on reading an operand that is not
    there: an instruction that panics has fewer than two operands, and the
    state is as it was. *)
Theorem instruction_panic_missing_operand i c c' :
  compileInstruction i c = (c', Panic) ->
  (length (Operands i) < 2)%nat /\ c' = c.
Proof.
  intros Hrun.
  apply compileInstruction_refused in Hrun
    as [[=] | [(_ & Hlen & Hc) | (_ & _ & [=])]].
  split; [done |]. by destruct Hc as [-> | (_ & a & prefix & lit & ne & _ & _ & _ & [=] & _)].
Qed.

Lemma instruction_panic_missing_operand_witness :
  (length [reg "rax"] < 2)%nat /\ sampleDrained = sampleDrained.
Proof.
  apply (instruction_panic_missing_operand
           {| Name := "add"; Operands := [reg "rax"] |} sampleDrained sampleDrained).
  vm_compute. reflexivity.
Defined.

(** X10: the error of an unknown instruction is returned for the mnemonics
    outside the ten of the [switch], and only for them; the state is as it
    was, and the error carries the instruction. *)
Theorem unknown_mnemonic i j c c' :
  compileInstruction i c = (c', Err (ErrUnknownInstruction j))
  <-> (Name i ∉ mnemonics) /\ c' = c /\ j = i.
Proof.
  split.
  - intros Hrun.
    apply compileInstruction_refused in Hrun
      as [[=] | [(_ & [] & _) | (Hname & -> & [= ->])]].
    done.
  - intros (Hname & -> & ->). rewrite mnemonics_cases in Hname.
    unfold compileInstruction.
    repeat (rewrite decide_False by tauto). done.
Qed.

(** ** The encodings *)

Lemma regNumber_registers r : is_Some (regNumber r) <-> r ∈ registers.
Proof.
  unfold regNumber, registers. rewrite !elem_of_cons, elem_of_nil.
  repeat case_decide; rewrite ?is_Some_alt; try tauto.
Qed.

Lemma tableINC_lookup r :
  tableINC !! r = n ← regNumber r; Some [0x48; 0xff; 0xc0 + n].
Proof.
  unfold regNumber. repeat case_decide; simplify_eq; try by vm_compute.
  unfold tableINC, assign. cbn [foldl fst snd].
  rewrite !lookup_insert_ne by done. apply lookup_empty.
Qed.

Lemma tableDEC_lookup r :
  tableDEC !! r = n ← regNumber r; Some [0x48; 0xff; 0xc8 + n].
Proof.
  unfold regNumber. repeat case_decide; simplify_eq; try by vm_compute.
  unfold tableDEC, assign. cbn [foldl fst snd].
  rewrite !lookup_insert_ne by done. apply lookup_empty.
Qed.

Lemma movOpcode_regNumber r :
  movOpcode r = n ← regNumber r; Some [0x48; 0xc7; 0xc0 + n].
Proof. unfold movOpcode, regNumber. by repeat case_decide; simplify_eq. Qed.

Lemma littleEndian_PutUint32 v : littleEndian (PutUint32 v) = v mod 2 ^ 32.
Proof.
  unfold PutUint32, littleEndian, byte. rewrite !Z.shiftr_div_pow2 by lia.
  change (2 ^ 8) with 256. change (2 ^ 16) with 65536.
  change (2 ^ 24) with 16777216. change (2 ^ 32) with 4294967296.
  Z.div_mod_to_equations. lia.
Qed.

(** No register name is a number [argToByteArray] accepts. *)
Lemma argToByteArray_not_register b n :
  argToByteArray b = (n, None) -> Literal b ∉ registers.
Proof.
  unfold argToByteArray. intros Hn Hreg.
  apply registers_cases in Hreg as [Hr | [Hr | [Hr | Hr]]]; rewrite Hr in Hn;
    vm_compute in Hn; discriminate Hn.
Qed.

Lemma compileInstruction_int i c :
  Name i = "int" ->
  compileInstruction i c
  = (a ← operand i 0; n ← try (argToByte a); appendCode [0xcd];; appendCode [n]) c.
Proof. intros Hn. unfold compileInstruction. rewrite Hn. reflexivity. Qed.

(** X11: [inc] and [dec] look at the text of their first operand only, not
    at its type nor at further operands: for one of the four registers, of
    number [n], they append REX.W, the opcode 0xff and the ModRM byte
    [0xc0 + n], respectively [0xc8 + n]; for any other text they return
    their error with the state as it was. *)
Theorem inc_dec_encoding i a rest c :
  Operands i = a :: rest ->
  match regNumber (Literal a) with
  | Some n =>
    assembleINC i c = (setCode (code c ++ [0x48; 0xff; 0xc0 + n]) c, Val tt)
    /\ assembleDEC i c = (setCode (code c ++ [0x48; 0xff; 0xc8 + n]) c, Val tt)
  | None =>
    assembleINC i c = (c, Err (ErrINC i)) /\ assembleDEC i c = (c, Err (ErrDEC i))
  end.
Proof.
  intros Hops. unfold assembleINC, assembleDEC. unfold_M. rewrite Hops.
  cbn [lookup list_lookup]. rewrite tableINC_lookup, tableDEC_lookup.
  by destruct (regNumber (Literal a)).
Qed.

Lemma inc_dec_encoding_witness :
  let i := {| Name := "inc"; Operands := [reg "rbx"] |} in
  assembleINC i New = (setCode (code New ++ [0x48; 0xff; 0xc0 + 3]) New, Val tt)
  /\ assembleDEC i New = (setCode (code New ++ [0x48; 0xff; 0xc8 + 3]) New, Val tt).
Proof.
  apply (inc_dec_encoding {| Name := "inc"; Operands := [reg "rbx"] |}
           (reg "rbx") [] New).
  reflexivity.
Defined.

(** X12: [xor] encodes its first operand only: for one of the four
    registers, of number [n], it appends the encoding of the xor of that
    register with itself (REX.W, 0x31, ModRM [0xc0 + 8 n + n]), whatever the
    other operands are; for any other text it returns its error with the
    state as it was. *)
Theorem xor_encodes_first_operand i a rest c :
  Operands i = a :: rest ->
  assembleXOR i c =
    match regNumber (Literal a) with
    | Some n => (setCode (code c ++ [0x48; 0x31; 0xc0 + 8 * n + n]) c, Val tt)
    | None => (c, Err (ErrXOR i))
    end.
Proof.
  intros Hops. unfold assembleXOR, regNumber. unfold_M. rewrite Hops.
  cbn [lookup list_lookup]. repeat case_decide; first [congruence | done].
Qed.

Lemma xor_encodes_first_operand_witness :
  assembleXOR {| Name := "xor"; Operands := [reg "rdx"; reg "rbx"] |} New =
    match regNumber "rdx" with
    | Some n => (setCode (code New ++ [0x48; 0x31; 0xc0 + 8 * n + n]) New, Val tt)
    | None => (New, Err (ErrXOR {| Name := "xor"; Operands := [reg "rdx"; reg "rbx"] |}))
    end.
Proof.
  apply (xor_encodes_first_operand
           {| Name := "xor"; Operands := [reg "rdx"; reg "rbx"] |}
           (reg "rdx") [reg "rbx"] New).
  reflexivity.
Defined.

(** X13: [int n], with [n] written in decimal, appends 0xcd and the low
    eight bits of [n] when [n] is a 64-bit integer: a number beyond a byte is
    truncated without an error; a number beyond 64 bits is refused with a
    range error and the state as it was. *)
Theorem int_encoding i a rest n c :
  Name i = "int" -> Operands i = a :: rest -> Literal a = strconv.Sprintf_d n ->
  compileInstruction i c =
    if decide (- 2 ^ 63 <= n < 2 ^ 63)
    then (setCode (code c ++ [0xcd; n mod 256]) c, Val tt)
    else (c, Err (ErrArgToByte (Literal a) strconv.ErrRange)).
Proof.
  intros Hname Hops Hlit. rewrite compileInstruction_int by done.
  unfold_M. rewrite Hops. cbn [lookup list_lookup].
  unfold argToByte. rewrite Hlit.
  rewrite ParseInt_Sprintf_d_gen by (left; done).
  case_decide as Hn.
  - destruct (Z.ltb_spec n (- 2 ^ 63)); [lia |].
    destruct (Z.ltb_spec n (2 ^ 63)); [| lia].
    fields. by rewrite <- app_assoc.
  - destruct (Z.ltb_spec n (- 2 ^ 63)); [done |].
    destruct (Z.ltb_spec n (2 ^ 63)); [lia | done].
Qed.

Lemma int_encoding_witness :
  compileInstruction {| Name := "int"; Operands := [num "384"] |} New =
    if decide (- 2 ^ 63 <= 384 < 2 ^ 63)
    then (setCode (code New ++ [0xcd; 384 mod 256]) New, Val tt)
    else (New, Err (ErrArgToByte "384" strconv.ErrRange)).
Proof.
  apply (int_encoding {| Name := "int"; Operands := [num "384"] |} (num "384") [] 384 New).
  - reflexivity.
  - reflexivity.
  - vm_compute. reflexivity.
Defined.

(** X14: [argToByteArray] on the decimal text of [n]: for a 64-bit [n] it
    yields four bytes which, read little-endian, are [n] modulo 2^32, so that
    a number beyond 32 bits loses its high bits without an error and a
    negative number is in two's complement; beyond 64 bits it yields a range
    error. *)
Theorem argToByteArray_little_endian n :
  argToByteArray (decimalToken n) =
    (if decide (- 2 ^ 63 <= n < 2 ^ 63)
     then (PutUint32 (uint32 n), None)
     else ([0; 0; 0; 0],
           Some (ErrArgToByteArray (strconv.Sprintf_d n) strconv.ErrRange)))
  /\ length (PutUint32 (uint32 n)) = 4%nat
  /\ Forall isByte (PutUint32 (uint32 n))
  /\ littleEndian (PutUint32 (uint32 n)) = n mod 2 ^ 32.
Proof.
  split.
  { case_decide.
    - by apply argToByteArray_decimal.
    - by apply argToByteArray_decimal_range. }
  split; [done |]. split; [apply PutUint32_bytes |].
  rewrite littleEndian_PutUint32. unfold uint32. by rewrite Z.mod_mod.
Qed.

(** X15: [mov r, number] for one of the four registers, of number [n],
    appends REX.W, 0xc7, the ModRM byte [0xc0 + n] and the four bytes of the
    number, and records no patch; when the number does not parse, the three
    opcode bytes are appended all the same and the error is returned. *)
Theorem mov_register_number i a b rest n c :
  Name i = "mov" -> Operands i = a :: b :: rest ->
  Typ a = REGISTER -> Typ b = NUMBER -> regNumber (Literal a) = Some n ->
  compileInstruction i c =
    match argToByteArray b with
    | (bs, None) => (setCode (code c ++ [0x48; 0xc7; 0xc0 + n] ++ bs) c, Val tt)
    | (_, Some e) => (setCode (code c ++ [0x48; 0xc7; 0xc0 + n]) c, Err e)
    end.
Proof.
  intros Hname Hops Ha Hb Hn. rewrite compileInstruction_mov by done.
  rewrite (assembleMov_number i a b rest [0x48; 0xc7; 0xc0 + n])
    by (by rewrite ?movOpcode_regNumber, ?Hn).
  rewrite movNumber_run. destruct (argToByteArray b) as [bs [e |]]; [done |].
  cbv zeta. fields. by rewrite <- app_assoc.
Qed.

Lemma mov_register_number_witness :
  let i := {| Name := "mov"; Operands := [reg "rdx"; num "-2"] |} in
  compileInstruction i New =
    match argToByteArray (num "-2") with
    | (bs, None) => (setCode (code New ++ [0x48; 0xc7; 0xc0 + 2] ++ bs) New, Val tt)
    | (_, Some e) => (setCode (code New ++ [0x48; 0xc7; 0xc0 + 2]) New, Err e)
    end.
Proof.
  apply (mov_register_number {| Name := "mov"; Operands := [reg "rdx"; num "-2"] |}
           (reg "rdx") (num "-2") [] 2 New); reflexivity.
Defined.

(** X16: [mov] of a register into a register is accepted and emits
    nothing: it prints a TODO line and succeeds, with the code, the patches
    and the tables as they were. *)
Theorem mov_register_register_emits_nothing i a b rest c :
  Name i = "mov" -> Operands i = a :: b :: rest ->
  Typ a = REGISTER -> Typ b = REGISTER ->
  compileInstruction i c
  = (setStdout (stdout c ++ ["TODO: mov reg,reg" +:+ String "010" EmptyString]) c,
     Val tt).
Proof.
  intros Hname Hops Ha Hb. rewrite compileInstruction_mov by done.
  rewrite assembleMov_unfold, assembleMov_body_cases, Hops.
  by rewrite decide_True, Hb.
Qed.

Lemma mov_register_register_emits_nothing_witness :
  let i := {| Name := "mov"; Operands := [reg "rax"; reg "rbx"] |} in
  compileInstruction i sampleDrained
  = (setStdout (stdout sampleDrained
                ++ ["TODO: mov reg,reg" +:+ String "010" EmptyString]) sampleDrained,
     Val tt).
Proof.
  apply (mov_register_register_emits_nothing
           {| Name := "mov"; Operands := [reg "rax"; reg "rbx"] |}
           (reg "rax") (reg "rbx") [] sampleDrained); reflexivity.
Defined.

(** X17: the identifier of a [mov] is looked up in the data table only: a
    name that is no data block is refused with an error and the state as it
    was, whatever the register and whatever the label table holds for the
    name. *)
Theorem mov_label_refused i a b rest c :
  Name i = "mov" -> Operands i = a :: b :: rest ->
  Typ a = REGISTER -> Typ b = IDENTIFIER ->
  dataOffsets c !! Literal b = None ->
  compileInstruction i c = (c, Err (ErrMovUnknownData b)).
Proof.
  intros Hname Hops Ha Hb Hnone. rewrite compileInstruction_mov by done.
  rewrite assembleMov_unfold, assembleMov_body_cases, Hops.
  by rewrite decide_True, Hb, Hnone.
Qed.

Lemma mov_label_refused_witness :
  is_Some (labels sampleDrained !! "done")
  /\ compileInstruction {| Name := "mov"; Operands := [reg "r9"; ident "done"] |}
       sampleDrained
     = (sampleDrained, Err (ErrMovUnknownData (ident "done"))).
Proof.
  split; [eexists; vm_compute; reflexivity |].
  apply (mov_label_refused {| Name := "mov"; Operands := [reg "r9"; ident "done"] |}
           (reg "r9") (ident "done") [] sampleDrained).
  - reflexivity.
  - reflexivity.
  - reflexivity.
  - reflexivity.
  - vm_compute. reflexivity.
Defined.

(** X18: [add r, number] and [sub r, number], for a number that parses:
    for [rax] the short form (REX.W, 0x05 or 0x2d), for [rbx], [rcx] and
    [rdx] REX.W, 0x81 and a ModRM byte, each followed by the four bytes of
    the number; for any other register the error of the encoder, with the
    state as it was. *)
Theorem add_sub_immediate i a b rest bs c :
  Operands i = a :: b :: rest ->
  Typ a = REGISTER -> Typ b = NUMBER -> argToByteArray b = (bs, None) ->
  assembleADD i c =
    match addOpcode (Literal a) with
    | Some op => (setCode (code c ++ op ++ bs) c, Val tt)
    | None => (c, Err (ErrAddNumber (Literal a)))
    end
  /\ assembleSUB i c =
    match subOpcode (Literal a) with
    | Some op => (setCode (code c ++ op ++ bs) c, Val tt)
    | None => (c, Err (ErrSubNumber (Literal a)))
    end.
Proof.
  intros Hops Ha Hb Hbs.
  pose proof (argToByteArray_not_register _ _ Hbs) as Hlit.
  assert (codesADD !! (Literal a, Literal b) = None) as Hadd.
  { destruct (codesADD !! (Literal a, Literal b)) as [x |] eqn:Hx; [| done].
    by apply codesADD_keys in Hx as [_ ?]. }
  assert (codesSUB !! (Literal a, Literal b) = None) as Hsub.
  { destruct (codesSUB !! (Literal a, Literal b)) as [x |] eqn:Hx; [| done].
    by apply codesSUB_keys in Hx as [_ ?]. }
  unfold assembleADD, assembleSUB, addOpcode, subOpcode. unfold_M. rewrite Hops.
  cbn [lookup list_lookup]. rewrite Hadd, Hsub, Hbs.
  rewrite !(decide_True (P := Typ a = REGISTER ∧ Typ b = NUMBER)) by done.
  split; repeat case_decide; fields; by rewrite <- ?app_assoc.
Qed.

Lemma add_sub_immediate_witness :
  let i := {| Name := "add"; Operands := [reg "rcx"; num "1000"] |} in
  assembleADD i New =
    match addOpcode "rcx" with
    | Some op => (setCode (code New ++ op ++ PutUint32 1000) New, Val tt)
    | None => (New, Err (ErrAddNumber "rcx"))
    end
  /\ assembleSUB i New =
    match subOpcode "rcx" with
    | Some op => (setCode (code New ++ op ++ PutUint32 1000) New, Val tt)
    | None => (New, Err (ErrSubNumber "rcx"))
    end.
Proof.
  apply (add_sub_immediate {| Name := "add"; Operands := [reg "rcx"; num "1000"] |}
           (reg "rcx") (num "1000") [] (PutUint32 1000) New).
  - reflexivity.
  - reflexivity.
  - reflexivity.
  - vm_compute. reflexivity.
Defined.

(** ** Panics and patch windows *)

Lemma statements_panic stream : forall c c',
  statements stream c = (c', Panic) ->
  Exists (fun stmt => exists i, stmt = Instr i /\ (length (Operands i) < 2)%nat) stream.
Proof.
  induction stream as [| stmt stream IH]; intros c c' Hrun.
  { cbn [statements] in Hrun. unfold_M. by simplify_eq. }
  apply statements_cons_any in Hrun as [[Hstmt _] | (c1 & _ & Hrun)].
  - apply Exists_cons_hd.
    destruct stmt as [name cs | v | name | i |]; cbn [statement] in Hstmt;
      try (unfold_M; unfold handleData in Hstmt; by simplify_eq).
    exists i. split; [done |].
    by apply compileInstruction_refused in Hstmt
      as [[=] | [(_ & Hlen & _) | (_ & _ & [=])]].
  - apply Exists_cons_tl. by eapply IH.
Qed.

(** X19: [Compile] panics only on an instruction that has fewer than two
    operands: a stream without such an instruction is compiled, or refused
    with an error, without a panic, in the statement loop and in the two
    patch loops alike. *)
Theorem Compile_panic_needs_operand W stream c :
  Compile W stream New (c, Panic) ->
  Exists (fun stmt => exists i, stmt = Instr i /\ (length (Operands i) < 2)%nat) stream.
Proof.
  intros HC. inversion HC as [c' r' Hrun Hr | c1 ps ls Hrun Hps Hls Hres].
  - by eapply statements_panic.
  - exfalso. pose proof (statements_reachable _ _ Hrun) as Hwf.
    unfold mbind, M_bind in Hres. rewrite resolve_wf in Hres by done.
    unfold writeElf in Hres. by case_match.
Qed.

Lemma Compile_panic_needs_operand_witness :
  Exists (fun stmt => exists i, stmt = Instr i /\ (length (Operands i) < 2)%nat)
    (twoBlocks ++ [instr "push" [num "5"]; instr "ret" []]).
Proof.
  apply (Compile_panic_needs_operand writeOk
           (twoBlocks ++ [instr "push" [num "5"]; instr "ret" []])
           (statements twoBlocks New).1).
  apply (Compile_aborted writeOk); [vm_compute; reflexivity | discriminate].
Defined.


